(** * Expedite: a consume-once router builder over an Express-style engine

    A shallow embedding of [src/index.ts] of zensors/expedite.  Three
    revisions of that file are in the tree:

    - [src/src/index.ts]      (here: [index_ts]),
    - [src/unnamed/part_000]  (here: [part_000], the documented revision),
    - [src/unnamed/part_001]  (here: [part_001], the oldest one).

    The classes [Consumable], [Router] and [LeafRouter] are the same text in
    all three, apart from the request handlers that [then], [return] and
    [finish] register (with or without [try]/[catch]), the shape of
    [Router.use], and the request facet that [marshalParams] and
    [marshalQuery] hand to the validator.

    JavaScript objects are mutable and passed by reference, so builders and
    Express routers live in a heap and are named by their addresses. *)

From Stdlib Require Import ZArith Lia.
From stdpp Require Import base list strings.

Open Scope string_scope.
Open Scope list_scope.

(** ** Values, requests and responses *)

(** The values a request facet (typed [unknown] in the source) can hold. *)
#[warnings="-register-all"]
Inductive JsValue : Type :=
| JsUndefined
| JsNull
| JsBool (b : bool)
| JsNum (n : Z)
| JsStr (s : string)
| JsObj (fields : list (string * JsValue)).

(** Thrown values.  [Error] is JavaScript's [new Error(message)];
    [MarshalError] is the validator's failure, carrying its message and the
    offending value; [TypeError] is a [TypeError] thrown by the engine, its
    message left out. *)
Inductive Exn : Type :=
| Error (message : string)
| MarshalError (message : string) (value : JsValue)
| Thrown (v : JsValue)
| TypeError.

(** [new Error("This Router has already been consumed.")], which the
    specification calls UseAfterConsume. *)
Definition UseAfterConsume : Exn :=
  Error "This Router has already been consumed.".

(** The part of an Express [Request] the library and its steps look at. *)
Record Request : Type := mkRequest {
  req_method : string;
  req_url : string;
  req_params : JsValue;
  req_query : JsValue;
  req_body : JsValue
}.

(** An Express [Response], reduced to the bodies handed to [res.send]. *)
Record Response : Type := mkResponse {
  res_sent : list JsValue
}.

Definition res_send (res : Response) (reply : JsValue) : Response :=
  {| res_sent := res_sent res ++ [reply] |}.

(** ** User functions *)

(** How a call of a user function ends: a plain return, a synchronous
    [throw], or a promise that is later fulfilled or rejected. *)
Inductive Completion (A : Type) : Type :=
| Returns (a : A)
| Throws (e : Exn)
| Resolves (a : A)
| Rejects (e : Exn).
Arguments Returns {A} a.
Arguments Throws {A} e.
Arguments Resolves {A} a.
Arguments Rejects {A} e.

(** [await c] inside an [async] function: the awaited value, or the
    exception raised at the [await]. *)
Definition await {A : Type} (c : Completion A) : Exn + A :=
  match c with
  | Returns a | Resolves a => inr a
  | Throws e | Rejects e => inl e
  end.

Definition fails {A : Type} (c : Completion A) : Prop :=
  exists e, await c = inl e.

(** [fn: (req: T) => T1 | Promise<T1>].  The request is a mutable object:
    the first component is its state after the call, the second what the
    call returned. *)
Definition Step : Type := Request -> Request * Completion Request.

(** [fn: (req: T) => S | Promise<S>], the argument of [return]. *)
Definition ResultFn : Type := Request -> Request * Completion JsValue.

(** [fn: (req: T, res: Response<S>) => void | Promise<void>], the argument
    of [finish]. *)
Definition TerminalFn : Type :=
  Request -> Response -> Request * Response * Completion unit.

(** A user function that a handler invoked. *)
Inductive Invocation : Type :=
| InvStep (fn : Step)
| InvResult (fn : ResultFn)
| InvTerminal (fn : TerminalFn).

(** ** Request handlers *)

(** What a handler [(req, res, next) => ...] did with its continuation. *)
Inductive Signal : Type :=
| SNext                 (* called next() *)
| SNextErr (e : Exn)    (* called next(e) *)
| SReturned             (* finished without calling next *)
| SThrew (e : Exn)      (* threw synchronously, next not called *)
| SRejected (e : Exn).  (* its promise was rejected, next not called *)

Record HandlerRun : Type := mkRun {
  run_req : Request;
  run_res : Response;
  run_calls : list Invocation;
  run_signal : Signal
}.

Definition RequestHandler : Type := Request -> Response -> HandlerRun.

Inductive Method : Type := get | post | put | delete.

Inductive Revision : Type := index_ts | part_000 | part_001.

(** Handler registered by [Router.then] and [LeafRouter.then] in
    [src/src/index.ts] (63-66, 125-128) and [part_001] (42-45, 104-107):
    [async (req, _res, next) => { await fn(req as T); next(); }]. *)
Definition then_handler_plain (fn : Step) : RequestHandler :=
  fun req res =>
    let '(req', c) := fn req in
    match await c with
    | inr _ => mkRun req' res [InvStep fn] SNext
    | inl e => mkRun req' res [InvStep fn] (SRejected e)
    end.

(** The same handler in [part_000] (131-138, 272-279):
    [try { await fn(req as T); next(); } catch (e) { next(e); }]. *)
Definition then_handler_caught (fn : Step) : RequestHandler :=
  fun req res =>
    let '(req', c) := fn req in
    match await c with
    | inr _ => mkRun req' res [InvStep fn] SNext
    | inl e => mkRun req' res [InvStep fn] (SNextErr e)
    end.

Definition then_handler (v : Revision) : Step -> RequestHandler :=
  match v with
  | part_000 => then_handler_caught
  | index_ts | part_001 => then_handler_plain
  end.

(** Handler registered by [LeafRouter.return] in [src/src/index.ts]
    (138-141) and [part_001] (117-120):
    [async (req, res) => { let reply = await fn(req as T); res.send(reply); }]. *)
Definition return_handler_plain (fn : ResultFn) : RequestHandler :=
  fun req res =>
    let '(req', c) := fn req in
    match await c with
    | inr reply => mkRun req' (res_send res reply) [InvResult fn] SReturned
    | inl e => mkRun req' res [InvResult fn] (SRejected e)
    end.

(** The same handler in [part_000] (295-302), with [catch (e) { next(e); }]. *)
Definition return_handler_caught (fn : ResultFn) : RequestHandler :=
  fun req res =>
    let '(req', c) := fn req in
    match await c with
    | inr reply => mkRun req' (res_send res reply) [InvResult fn] SReturned
    | inl e => mkRun req' res [InvResult fn] (SNextErr e)
    end.

Definition return_handler (v : Revision) : ResultFn -> RequestHandler :=
  match v with
  | part_000 => return_handler_caught
  | index_ts | part_001 => return_handler_plain
  end.

(** Handler registered by [LeafRouter.finish] in [src/src/index.ts] (150)
    and [part_001] (129): [(req, res) => fn(req as T, res)], not [async]. *)
Definition finish_handler_plain (fn : TerminalFn) : RequestHandler :=
  fun req res =>
    let '(req', res', c) := fn req res in
    match c with
    | Returns _ | Resolves _ => mkRun req' res' [InvTerminal fn] SReturned
    | Throws e => mkRun req' res' [InvTerminal fn] (SThrew e)
    | Rejects e => mkRun req' res' [InvTerminal fn] (SRejected e)
    end.

(** The same handler in [part_000] (318-324):
    [async (req, res, next) => { try { return await fn(req as T, res) } catch (e) { next(e); } }]. *)
Definition finish_handler_caught (fn : TerminalFn) : RequestHandler :=
  fun req res =>
    let '(req', res', c) := fn req res in
    match await c with
    | inr _ => mkRun req' res' [InvTerminal fn] SReturned
    | inl e => mkRun req' res' [InvTerminal fn] (SNextErr e)
    end.

Definition finish_handler (v : Revision) : TerminalFn -> RequestHandler :=
  match v with
  | part_000 => finish_handler_caught
  | index_ts | part_001 => finish_handler_plain
  end.

(** ** The heap *)

(** An argument of the engine's [router.use]. *)
Inductive ExpressArg : Type :=
| ArgUndefined
| ArgPath (s : string)
| ArgHandler (h : RequestHandler)
| ArgRouter (e : nat).

(** What a registration call left in an [ExpressRouter]:
    [router.use(args...)] or [router[method](path, ...handlers)]. *)
Inductive Layer : Type :=
| LayerUse (args : list ExpressArg)
| LayerRoute (m : Method) (path : string) (handlers : list RequestHandler).

(** An [ExpressRouter], the specification's HandlerList. *)
Definition ExpressRouter : Type := list Layer.

(** A [Router] instance: the inherited [consumed] and its [router]. *)
Record RouterObj : Type := mkRouter {
  Router_consumed : bool;
  Router_router : nat
}.

(** A [LeafRouter] instance.  Its [handlers] array is never written in
    place by the source ([concat] and spread only read it), so the array is
    held by value. *)
Record LeafRouterObj : Type := mkLeafRouter {
  LeafRouter_consumed : bool;
  LeafRouter_router : nat;
  LeafRouter_method : Method;
  LeafRouter_path : string;
  LeafRouter_handlers : list RequestHandler
}.

(** Objects are allocated at the end of their table; an address is an index. *)
Record Heap : Type := mkHeap {
  routers : list RouterObj;
  leaves : list LeafRouterObj;
  express : list ExpressRouter
}.

Definition empty_heap : Heap := mkHeap [] [] [].

(** ** Computations: heap passing with exceptions *)

(** A call returns ([Val]) or throws ([Exc]); either way the heap keeps what
    was written before.  [Dangling] marks an address that was never
    allocated, which no reference returned by the library is. *)
Inductive Res (A : Type) : Type :=
| Val (a : A) (h : Heap)
| Exc (e : Exn) (h : Heap)
| Dangling.
Arguments Val {A} a h.
Arguments Exc {A} e h.
Arguments Dangling {A}.

Definition M (A : Type) : Type := Heap -> Res A.

Definition ret {A : Type} (a : A) : M A := fun h => Val a h.

Definition throw {A : Type} (e : Exn) : M A := fun h => Exc e h.

Definition bind {A B : Type} (c : M A) (k : A -> M B) : M B :=
  fun h =>
    match c h with
    | Val a h' => k a h'
    | Exc e h' => Exc e h'
    | Dangling => Dangling
    end.

Notation "'let*' x := c 'in' k" := (bind c (fun x => k))
  (at level 10, x name, c at level 100, k at level 200).
Notation "c ;; k" := (bind c (fun _ => k))
  (at level 100, k at level 200, right associativity).

Definition heap_of {A : Type} (r : Res A) : option Heap :=
  match r with
  | Val _ h | Exc _ h => Some h
  | Dangling => None
  end.

(** ** The engine's registration calls *)

(** [ExpressRouter()]: a fresh, empty router. *)
Definition express_new : M nat :=
  fun h =>
    Val (length (express h))
        (mkHeap (routers h) (leaves h) (express h ++ [[]])).

Definition express_register (e : nat) (l : Layer) : M unit :=
  fun h =>
    match express h !! e with
    | Some ls => Val tt (mkHeap (routers h) (leaves h) (<[e := ls ++ [l]]> (express h)))
    | None => Dangling
    end.

(** [typeof a === 'function']: handlers and [ExpressRouter]s are functions,
    a path and [undefined] are not. *)
Definition is_function (a : ExpressArg) : bool :=
  match a with
  | ArgHandler _ | ArgRouter _ => true
  | ArgUndefined | ArgPath _ => false
  end.

(** The callbacks the engine gets through before it meets one that is not
    a function. *)
Fixpoint leading_functions (callbacks : list ExpressArg) : list ExpressArg :=
  match callbacks with
  | a :: rest => if is_function a then a :: leading_functions rest else []
  | [] => []
  end.

(** The engine's loop over the callbacks of one [use]: each function is
    registered in turn, under the mount path if there is one, and the
    first that is not a function throws a [TypeError] after those before
    it were registered; no callback at all throws as well.  What was
    registered is recorded as one [LayerUse] holding the path and the
    callbacks that got through. *)
Definition use_callbacks (e : nat) (path callbacks : list ExpressArg) : M unit :=
  match callbacks with
  | [] => throw TypeError
  | _ :: _ =>
      match leading_functions callbacks with
      | [] => ret tt
      | ok => express_register e (LayerUse (path ++ ok))
      end;;
      if decide (length (leading_functions callbacks) = length callbacks)
      then ret tt
      else throw TypeError
  end.

(** [router.use(args...)] of Express.  A first argument that is not a
    function is the mount path and the callbacks are the arguments after
    it; a path that is not a string makes the engine throw a [TypeError]
    before anything is registered.  With a function first, every argument
    is a callback. *)
Definition express_use (e : nat) (args : list ExpressArg) : M unit :=
  match args with
  | [] => throw TypeError
  | first :: rest =>
      if is_function first then use_callbacks e [] args
      else
        match first with
        | ArgPath _ => use_callbacks e [first] rest
        | _ => throw TypeError
        end
  end.

(** The argument lists [router.use] gets through without throwing: an
    optional leading path, then at least one callback, all of them
    functions. *)
Definition engine_accepts (args : list ExpressArg) : bool :=
  match args with
  | [] => false
  | first :: rest =>
      if is_function first then forallb is_function rest
      else
        match first, rest with
        | ArgPath _, _ :: _ => forallb is_function rest
        | _, _ => false
        end
  end.

(** [router[method](path, ...handlers)]. *)
Definition express_method (e : nat) (m : Method) (path : string)
    (handlers : list RequestHandler) : M unit :=
  express_register e (LayerRoute m path handlers).

(** ** class Consumable *)

(** [checkConsumed()], on the instance's [consumed] field. *)
Definition checkConsumed (consumed : bool) : Exn + unit :=
  if consumed then inl UseAfterConsume else inr tt.

(** [consume()]: [checkConsumed()] and then [this.consumed = true]; the
    result is the new value of the field. *)
Definition consume (consumed : bool) : Exn + bool :=
  match checkConsumed consumed with
  | inl e => inl e
  | inr _ => inr true
  end.

(** ** class Router *)

(** [new Router(router?)]: [this.consumed = false] and
    [this.router = router ?? ExpressRouter()]. *)
Definition Router_new (router : option nat) : M nat :=
  let* e := match router with
            | Some e => ret e
            | None => express_new
            end in
  fun h =>
    Val (length (routers h))
        (mkHeap (routers h ++ [mkRouter false e]) (leaves h) (express h)).

Definition Router_checkConsumed (this : nat) : M unit :=
  fun h =>
    match routers h !! this with
    | Some o =>
        match checkConsumed (Router_consumed o) with
        | inl e => Exc e h
        | inr _ => Val tt h
        end
    | None => Dangling
    end.

Definition Router_consume (this : nat) : M unit :=
  fun h =>
    match routers h !! this with
    | Some o =>
        match consume (Router_consumed o) with
        | inl e => Exc e h
        | inr c =>
            Val tt (mkHeap (<[this := mkRouter c (Router_router o)]> (routers h))
                           (leaves h) (express h))
        end
    | None => Dangling
    end.

(** [this.router] *)
Definition Router_get_router (this : nat) : M nat :=
  fun h =>
    match routers h !! this with
    | Some o => Val (Router_router o) h
    | None => Dangling
    end.

(** [toExpress()] *)
Definition Router_toExpress (this : nat) : M nat :=
  Router_consume this;;
  Router_get_router this.

(** An argument of [Router.use]: absent, a subpath, a [Router] instance,
    or something the engine itself accepts (a handler or an
    [ExpressRouter]). *)
Inductive UseArg : Type :=
| UseUndefined
| UsePath (s : string)
| UseRouter (r : nat)
| UseHandler (h : RequestHandler)
| UseExpressRouter (e : nat).

(** [if (x instanceof Router) { x = x.toExpress(); }] *)
Definition compile_arg (a : UseArg) : M ExpressArg :=
  match a with
  | UseRouter r => let* e := Router_toExpress r in ret (ArgRouter e)
  | UseUndefined => ret ArgUndefined
  | UsePath s => ret (ArgPath s)
  | UseHandler h => ret (ArgHandler h)
  | UseExpressRouter e => ret (ArgRouter e)
  end.

(** [use(first, second?)] of [src/src/index.ts] (48-58) and [part_000]
    (108-118). *)
Definition Router_use (this : nat) (first second : UseArg) : M nat :=
  Router_consume this;;
  let* first' := compile_arg first in
  let* second' := compile_arg second in
  let* e := Router_get_router this in
  express_use e [first'; second'];;
  Router_new (Some e).

(** [use(fn)] of [part_001] (33-37). *)
Definition Router_use_fn (this : nat) (fn : RequestHandler) : M nat :=
  Router_consume this;;
  let* e := Router_get_router this in
  express_use e [ArgHandler fn];;
  Router_new (Some e).

(** [then(fn)] *)
Definition Router_then (v : Revision) (this : nat) (fn : Step) : M nat :=
  Router_consume this;;
  let* e := Router_get_router this in
  express_use e [ArgHandler (then_handler v fn)];;
  Router_new (Some e).

(** [new LeafRouter(router, method, path, handlers?)], with
    [this.handlers = handlers ?? []]. *)
Definition LeafRouter_new (router : nat) (method : Method) (path : string)
    (handlers : option (list RequestHandler)) : M nat :=
  fun h =>
    Val (length (leaves h))
        (mkHeap (routers h)
                (leaves h ++ [mkLeafRouter false router method path
                                (default [] handlers)])
                (express h)).

(** [get(path)], [post(path)], [put(path)] and [delete(path)] differ only
    in the method they pass on. *)
Definition Router_method (m : Method) (this : nat) (path : string) : M nat :=
  Router_checkConsumed this;;
  let* e := Router_get_router this in
  LeafRouter_new e m path None.

Definition Router_get : nat -> string -> M nat := Router_method get.
Definition Router_post : nat -> string -> M nat := Router_method post.
Definition Router_put : nat -> string -> M nat := Router_method put.
Definition Router_delete : nat -> string -> M nat := Router_method delete.

(** ** class LeafRouter *)

Definition LeafRouter_consume (this : nat) : M unit :=
  fun h =>
    match leaves h !! this with
    | Some o =>
        match consume (LeafRouter_consumed o) with
        | inl e => Exc e h
        | inr c =>
            Val tt (mkHeap (routers h)
                           (<[this := mkLeafRouter c (LeafRouter_router o)
                                        (LeafRouter_method o) (LeafRouter_path o)
                                        (LeafRouter_handlers o)]> (leaves h))
                           (express h))
        end
    | None => Dangling
    end.

(** Reading the fields of [this]. *)
Definition LeafRouter_fields (this : nat) : M LeafRouterObj :=
  fun h =>
    match leaves h !! this with
    | Some o => Val o h
    | None => Dangling
    end.

(** [then(fn)]: [this.handlers.concat([handler])] builds a new array. *)
Definition LeafRouter_then (v : Revision) (this : nat) (fn : Step) : M nat :=
  LeafRouter_consume this;;
  let* o := LeafRouter_fields this in
  LeafRouter_new (LeafRouter_router o) (LeafRouter_method o) (LeafRouter_path o)
                 (Some (LeafRouter_handlers o ++ [then_handler v fn])).

(** [return(fn)] *)
Definition LeafRouter_return (v : Revision) (this : nat) (fn : ResultFn) : M unit :=
  LeafRouter_consume this;;
  let* o := LeafRouter_fields this in
  express_method (LeafRouter_router o) (LeafRouter_method o) (LeafRouter_path o)
                 (LeafRouter_handlers o ++ [return_handler v fn]).

(** [finish(fn)] *)
Definition LeafRouter_finish (v : Revision) (this : nat) (fn : TerminalFn) : M unit :=
  LeafRouter_consume this;;
  let* o := LeafRouter_fields this in
  express_method (LeafRouter_router o) (LeafRouter_method o) (LeafRouter_path o)
                 (LeafRouter_handlers o ++ [finish_handler v fn]).

(** ** Calls as data *)

(** What a builder method hands back. *)
Inductive Value : Type :=
| VRouter (r : nat)
| VLeafRouter (l : nat)
| VExpressRouter (e : nat)
| VVoid.

Definition returning {A : Type} (f : A -> Value) (c : M A) : M Value :=
  let* a := c in ret (f a).

(** The public methods of [Router]; [Method_ m path] stands for [get],
    [post], [put] and [delete]. *)
Inductive RouterCall : Type :=
| Use (first second : UseArg)
| UseFn (fn : RequestHandler)
| Then (fn : Step)
| Method_ (m : Method) (path : string)
| ToExpress.

Definition Router_call (v : Revision) (this : nat) (c : RouterCall) : M Value :=
  match c with
  | Use first second => returning VRouter (Router_use this first second)
  | UseFn fn => returning VRouter (Router_use_fn this fn)
  | Then fn => returning VRouter (Router_then v this fn)
  | Method_ m path => returning VLeafRouter (Router_method m this path)
  | ToExpress => returning VExpressRouter (Router_toExpress this)
  end.

(** The public methods of [LeafRouter]. *)
Inductive LeafRouterCall : Type :=
| LeafThen (fn : Step)
| Return (fn : ResultFn)
| Finish (fn : TerminalFn).

Definition LeafRouter_call (v : Revision) (this : nat) (c : LeafRouterCall) : M Value :=
  match c with
  | LeafThen fn => returning VLeafRouter (LeafRouter_then v this fn)
  | Return fn => returning (fun _ => VVoid) (LeafRouter_return v this fn)
  | Finish fn => returning (fun _ => VVoid) (LeafRouter_finish v this fn)
  end.

(** A builder instance. *)
Inductive Builder : Type :=
| ARouter (r : nat)
| ALeafRouter (l : nat).

(** One thing client code can do with the library. *)
Inductive Action : Type :=
| New (router : option nat)
| OnRouter (this : nat) (c : RouterCall)
| OnLeafRouter (this : nat) (c : LeafRouterCall).

Definition perform (v : Revision) (a : Action) : M Value :=
  match a with
  | New router => returning VRouter (Router_new router)
  | OnRouter this c => Router_call v this c
  | OnLeafRouter this c => LeafRouter_call v this c
  end.

Definition receiver (a : Action) : option Builder :=
  match a with
  | New _ => None
  | OnRouter this _ => Some (ARouter this)
  | OnLeafRouter this _ => Some (ALeafRouter this)
  end.

(** The operations that call [consume()]; the method factories only call
    [checkConsumed()]. *)
Definition consuming (a : Action) : bool :=
  match a with
  | New _ => false
  | OnRouter _ (Method_ _ _) => false
  | OnRouter _ _ => true
  | OnLeafRouter _ _ => true
  end.

(** The [consumed] field of a builder, if it is allocated. *)
Definition consumed_flag (h : Heap) (b : Builder) : option bool :=
  match b with
  | ARouter r => Router_consumed <$> routers h !! r
  | ALeafRouter l => LeafRouter_consumed <$> leaves h !! l
  end.

(** The [ExpressRouter] a builder wraps. *)
Definition wrapped (h : Heap) (b : Builder) : option nat :=
  match b with
  | ARouter r => Router_router <$> routers h !! r
  | ALeafRouter l => LeafRouter_router <$> leaves h !! l
  end.

(** [later v h h']: client code can take the heap from [h] to [h'] by
    library calls, whether they return or throw. *)
Inductive later (v : Revision) : Heap -> Heap -> Prop :=
| later_now h : later v h h
| later_call h a h1 h2 :
    heap_of (perform v a h) = Some h1 ->
    later v h1 h2 ->
    later v h h2.

(** ** Client chains *)

(** [r.then(f1).then(f2)...]: the router each call returns receives the
    next call. *)
Fixpoint Router_thens (v : Revision) (this : nat) (fns : list Step) : M nat :=
  match fns with
  | [] => ret this
  | fn :: fns' => let* r := Router_then v this fn in Router_thens v r fns'
  end.

Fixpoint LeafRouter_thens (v : Revision) (this : nat) (fns : list Step) : M nat :=
  match fns with
  | [] => ret this
  | fn :: fns' => let* l := LeafRouter_then v this fn in LeafRouter_thens v l fns'
  end.

(** How a [LeafRouter] chain is closed. *)
Inductive Terminal : Type :=
| ByReturn (fn : ResultFn)
| ByFinish (fn : TerminalFn).

Definition LeafRouter_close (v : Revision) (this : nat) (t : Terminal) : M unit :=
  match t with
  | ByReturn fn => LeafRouter_return v this fn
  | ByFinish fn => LeafRouter_finish v this fn
  end.

Definition terminal_handler (v : Revision) (t : Terminal) : RequestHandler :=
  match t with
  | ByReturn fn => return_handler v fn
  | ByFinish fn => finish_handler v fn
  end.

Definition terminal_invocation (t : Terminal) : Invocation :=
  match t with
  | ByReturn fn => InvResult fn
  | ByFinish fn => InvTerminal fn
  end.

(** The chain of the README:
    [const r = this.then(p1)...then(pk);
     r[m](path).then(s1)...then(sn).return(f);   // or .finish(f)
     r.toExpress()]. *)
Definition endpoint (v : Revision) (this : nat) (pre : list Step)
    (m : Method) (path : string) (steps : list Step) (t : Terminal) : M nat :=
  let* r := Router_thens v this pre in
  let* l := Router_method m r path in
  let* l' := LeafRouter_thens v l steps in
  LeafRouter_close v l' t;;
  Router_toExpress r.

(** [pass fns req]: the request after every function of [fns] has run on
    it in turn and none has failed. *)
Fixpoint pass (fns : list Step) (req : Request) : option Request :=
  match fns with
  | [] => Some req
  | fn :: fns' =>
      let '(req', c) := fn req in
      match await c with
      | inr _ => pass fns' req'
      | inl _ => None
      end
  end.

(** The errors a handler passed to [next]. *)
Definition forwarded (s : Signal) : list Exn :=
  match s with
  | SNextErr e => [e]
  | _ => []
  end.

(** ** The dispatch engine *)

(** Express is not part of this repository.  The engine below is the one
    the specification describes at its interface: it "accepts a path
    pattern and an ordered handler list, invokes handlers in order per
    incoming request", with "a next/continuation capability used to advance
    to the following Step or to forward an error". *)

Section Dispatch.

(** The engine's own matching of a request against a route's method and
    path pattern, and against a mount path; the request as the callbacks
    of a matching mount see it, with the mount path stripped from its url;
    and the request put back as it was when such a callback calls [next]. *)
Variable route_matches : Method -> string -> Request -> bool.
Variable mount_matches : string -> Request -> bool.
Variable mount_strip : string -> Request -> Request.
Variable mount_restore : string -> Request -> Request.

(** Modelled from the spec: the engine's use of [next].  After a handler
    ran as [r], the engine goes on with [k] only if the handler called
    [next()]; otherwise the run ends there and keeps the handler's
    signal. *)
Definition continue (r : HandlerRun)
    (k : Request -> Response -> option HandlerRun) : option HandlerRun :=
  match run_signal r with
  | SNext =>
      match k (run_req r) (run_res r) with
      | Some r' =>
          Some (mkRun (run_req r') (run_res r')
                      (run_calls r ++ run_calls r') (run_signal r'))
      | None => None
      end
  | _ => Some r
  end.

(** Modelled from the spec: running past the last handler hands over to
    whatever follows. *)
Definition fall_through : Request -> Response -> option HandlerRun :=
  fun req res => Some (mkRun req res [] SNext).

Section Layers.

(** How a mounted [ExpressRouter] handles a request. *)
Variable mounted : nat -> Request -> Response -> option HandlerRun.

(** Modelled from the spec: the handlers of one route, in order. *)
Fixpoint run_handlers (hs : list RequestHandler)
    (req : Request) (res : Response) : option HandlerRun :=
  match hs with
  | [] => fall_through req res
  | h :: hs' => continue (h req res) (run_handlers hs')
  end.

(** Modelled from the spec: entering a callback registered with [use].
    Without a mount path every request enters, as it is; with one, a
    request enters when the path matches, and the callback sees it with
    the mount path stripped. *)
Definition enter (mount : option string) (req : Request) : option Request :=
  match mount with
  | None => Some req
  | Some p => if mount_matches p req then Some (mount_strip p req) else None
  end.

(** Modelled from the spec: leaving a mounted callback.  When it called
    [next], with or without an error, the url is put back. *)
Definition leave (mount : option string) (r : HandlerRun) : HandlerRun :=
  match mount with
  | None => r
  | Some p =>
      match run_signal r with
      | SNext | SNextErr _ =>
          mkRun (mount_restore p (run_req r)) (run_res r) (run_calls r) (run_signal r)
      | _ => r
      end
  end.

(** Modelled from the spec: the callbacks of one [use], in order, each one
    entered on its own; a mounted router handles the request it is
    given. *)
Fixpoint run_callbacks (mount : option string) (args : list ExpressArg)
    (req : Request) (res : Response) : option HandlerRun :=
  match args with
  | [] => fall_through req res
  | ArgHandler h :: args' =>
      match enter mount req with
      | Some req' => continue (leave mount (h req' res)) (run_callbacks mount args')
      | None => run_callbacks mount args' req res
      end
  | ArgRouter e :: args' =>
      match enter mount req with
      | Some req' =>
          match mounted e req' res with
          | Some r => continue (leave mount r) (run_callbacks mount args')
          | None => None
          end
      | None => run_callbacks mount args' req res
      end
  | (ArgUndefined | ArgPath _) :: args' => run_callbacks mount args' req res
  end.

(** Modelled from the spec: a route layer applies when method and path
    match; the callbacks of a [use] layer run under its leading path if it
    has one, and for every request otherwise. *)
Definition run_layer (l : Layer) (req : Request) (res : Response)
    : option HandlerRun :=
  match l with
  | LayerRoute m path hs =>
      if route_matches m path req then run_handlers hs req res
      else fall_through req res
  | LayerUse (ArgPath p :: args) => run_callbacks (Some p) args req res
  | LayerUse args => run_callbacks None args req res
  end.

(** Modelled from the spec: the layers of a router, in the order they
    were registered. *)
Fixpoint run_layers (ls : list Layer) (req : Request) (res : Response)
    : option HandlerRun :=
  match ls with
  | [] => fall_through req res
  | l :: ls' =>
      match run_layer l req res with
      | Some r => continue r (run_layers ls')
      | None => None
      end
  end.

End Layers.

(** Modelled from the spec: the host dispatch engine handling one request
    with router [e].  What the engine or the error middleware does after
    a run has ended is not modelled.  [None] means the fuel ran out below
    nested mounts, or a router is not allocated. *)
Fixpoint dispatch (fuel : nat) (h : Heap) (e : nat)
    (req : Request) (res : Response) : option HandlerRun :=
  match fuel with
  | 0 => None
  | S fuel' =>
      match express h !! e with
      | Some ls => run_layers (dispatch fuel' h) ls req res
      | None => None
      end
  end.

End Dispatch.

(** ** Narrowing steps *)

Section Marshal.

(** [MarshalUnion<T>] and [marshal] come from [@zensors/sheriff].
    [marshal value description] is [None] when [value] satisfies
    [description] and the message of the [MarshalError] it throws
    otherwise. *)
Variable MarshalUnion : Type.
Variable marshal : JsValue -> MarshalUnion -> option string.

Definition satisfies (value : JsValue) (description : MarshalUnion) : Prop :=
  marshal value description = None.

Definition violates (value : JsValue) (description : MarshalUnion) : Prop :=
  exists message, marshal value description = Some message.

(** [(req) => { marshal(facet, description); return req; }] *)
Definition marshal_then_return (facet : JsValue) (description : MarshalUnion)
    (req : Request) : Request * Completion Request :=
  match marshal facet description with
  | None => (req, Returns req)
  | Some message => (req, Throws (MarshalError message facet))
  end.

(** [marshalParams]: [marshal(req.params, description)] in [part_000]
    (339), [marshal(req.body, description)] in [src/src/index.ts] (158)
    and [part_001] (137). *)
Definition marshalParams (v : Revision) (description : MarshalUnion) : Step :=
  fun req =>
    match v with
    | part_000 => marshal_then_return (req_params req) description req
    | index_ts | part_001 => marshal_then_return (req_body req) description req
    end.

(** [marshalQuery]: [marshal(req.query, description)] in [part_000]
    (353), [marshal(req.body, description)] in [src/src/index.ts] (165)
    and [part_001] (144). *)
Definition marshalQuery (v : Revision) (description : MarshalUnion) : Step :=
  fun req =>
    match v with
    | part_000 => marshal_then_return (req_query req) description req
    | index_ts | part_001 => marshal_then_return (req_body req) description req
    end.

(** [marshalBody]: [marshal(req.body, description)] in all three. *)
Definition marshalBody (v : Revision) (description : MarshalUnion) : Step :=
  fun req => marshal_then_return (req_body req) description req.

End Marshal.

Arguments satisfies {MarshalUnion} marshal value description.
Arguments violates {MarshalUnion} marshal value description.
Arguments marshal_then_return {MarshalUnion} marshal facet description req.
Arguments marshalParams {MarshalUnion} marshal v description.
Arguments marshalQuery {MarshalUnion} marshal v description.
Arguments marshalBody {MarshalUnion} marshal v description.

Definition is_ValidationError (e : Exn) : Prop :=
  exists message value, e = MarshalError message value.

(** ** Sample data *)

(** A descriptor language with one descriptor, [M.str]. *)
Inductive SampleUnion : Type := M_str.

Definition sample_marshal (value : JsValue) (d : SampleUnion) : option string :=
  match value with
  | JsStr _ => None
  | _ => Some "Expected string"
  end.

(** An engine that matches a route on the exact url, and a mount when the
    url is the mount path or goes on below it; inside the mount the url is
    what follows the mount path. *)
Definition sample_route_matches (m : Method) (path : string) (req : Request) : bool :=
  String.eqb path (req_url req).

Definition sample_mount_matches (p : string) (req : Request) : bool :=
  String.eqb p (req_url req) || String.prefix (p +:+ "/") (req_url req).

Definition with_url (req : Request) (url : string) : Request :=
  mkRequest (req_method req) url (req_params req) (req_query req) (req_body req).

Definition sample_mount_strip (p : string) (req : Request) : Request :=
  with_url req
    (if String.eqb p (req_url req) then "/"
     else String.substring (String.length p)
            (String.length (req_url req) - String.length p) (req_url req)).

Definition sample_mount_restore (p : string) (req : Request) : Request :=
  with_url req (if String.eqb "/" (req_url req) then p else p +:+ req_url req).

Definition sample_request : Request :=
  mkRequest "GET" "/hello" (JsNum 7) JsNull (JsStr "hello").


Definition blank_response : Response := mkResponse [].

Definition step_ok : Step := fun req => (req, Returns req).

Definition step_async_ok : Step := fun req => (req, Resolves req).

Definition step_throws : Step := fun req => (req, Throws (Error "denied")).

Definition step_rejects : Step := fun req => (req, Rejects (Error "denied")).

Definition result_body : ResultFn := fun req => (req, Returns (req_body req)).

Definition result_throws : ResultFn := fun req => (req, Throws (Error "no such post")).

Definition result_rejects : ResultFn := fun req => (req, Rejects (Error "no such post")).

(** A request whose body is the number 3. *)
Definition number_request : Request :=
  mkRequest "POST" "/" JsNull JsNull (JsNum 3).

(** [new Router()] in an empty heap: router 0 over Express router 0. *)
Definition fresh_heap : Heap := mkHeap [mkRouter false 0] [] [[]].

(** [const main = new Router(); const blog = new Router();] *)
Definition two_routers : Heap :=
  mkHeap [mkRouter false 0; mkRouter false 1] [] [[]; []].

(** The heap after [main.use("/blog", blog)]. *)
Definition two_routers_used : Heap :=
  mkHeap [mkRouter true 0; mkRouter true 1; mkRouter false 0] []
         [[LayerUse [ArgPath "/blog"; ArgRouter 1]]; []].

(** [const blog = new Router(); blog.toExpress(); const main = new Router();]
    router 0 is [main], router 1 is [blog]. *)
Definition delegate_consumed_heap : Heap :=
  mkHeap [mkRouter false 0; mkRouter true 1] [] [[]; []].

(** The heap after [const r = new Router().then(step_ok); r.toExpress()]. *)
Definition compiled_heap : Heap :=
  mkHeap [mkRouter true 0; mkRouter true 0] []
         [[LayerUse [ArgHandler (then_handler index_ts step_ok)]]].

(** The heap after [const r1 = new Router().then(step_ok)]. *)
Definition then_heap : Heap :=
  mkHeap [mkRouter true 0; mkRouter false 0] []
         [[LayerUse [ArgHandler (then_handler index_ts step_ok)]]].

(** The heap after [const l = new Router().get("/hello")]. *)
Definition leaf_heap : Heap :=
  mkHeap [mkRouter false 0] [mkLeafRouter false 0 get "/hello" []] [[]].

(** The heap after [l.then(step_ok)]. *)
Definition leaf_then_heap : Heap :=
  mkHeap [mkRouter false 0]
         [mkLeafRouter true 0 get "/hello" [];
          mkLeafRouter false 0 get "/hello" [then_handler index_ts step_ok]]
         [[]].

(** ** A chain at request time *)

(** The layer [Router.then(fn)] registers. *)
Definition use_layer (v : Revision) (fn : Step) : Layer :=
  LayerUse [ArgHandler (then_handler v fn)].

(** The invocations a chain is meant to make for a request: its steps in
    registration order, each on the request as the one before left it, up
    to and including the first that fails; the terminal function after the
    last step if none fails. *)
Fixpoint pipeline_calls (fns : list Step) (t : Terminal) (req : Request)
    : list Invocation :=
  match fns with
  | [] => [terminal_invocation t]
  | fn :: fns' =>
      InvStep fn ::
      (let '(req', c) := fn req in
       match await c with
       | inr _ => pipeline_calls fns' t req'
       | inl _ => []
       end)
  end.

(** ** Sharing of the [ExpressRouter] *)

(** [registered h h' e l]: from [h] to [h'], layer [l] was appended to
    [ExpressRouter] [e] and nothing else was registered anywhere. *)
Definition registered (h h' : Heap) (e : nat) (l : Layer) : Prop :=
  exists ls, express h !! e = Some ls /\
             express h' = <[e := ls ++ [l]]> (express h).

(** At most one layer was registered, and in [e]. *)
Definition writes_only_to (h h' : Heap) (e : nat) : Prop :=
  express h' = express h \/ exists l, registered h h' e l.

(** [derived a h h' e x]: what call [a] returned is, as the call promises,
    a [Router] or [LeafRouter] that did not exist in [h], is not consumed
    in [h'] and wraps [e]; or, for [toExpress], [e] itself. *)
Definition derived (a : Action) (h h' : Heap) (e : nat) (x : Value) : Prop :=
  match a, x with
  | OnRouter _ (Use _ _ | UseFn _ | Then _), VRouter r' =>
      routers h !! r' = None /\ routers h' !! r' = Some (mkRouter false e)
  | OnRouter _ (Method_ m path), VLeafRouter l' =>
      leaves h !! l' = None /\
      leaves h' !! l' = Some (mkLeafRouter false e m path [])
  | OnRouter _ ToExpress, VExpressRouter e' => e' = e
  | OnLeafRouter _ (LeafThen _), VLeafRouter l' =>
      leaves h !! l' = None /\
      exists m path hs, leaves h' !! l' = Some (mkLeafRouter false e m path hs)
  | OnLeafRouter _ (Return _ | Finish _), VVoid => True
  | _, _ => False
  end.

(** The heaps agree on everything but [consumed] fields. *)
Definition same_shape (h h' : Heap) : Prop :=
  express h' = express h /\
  leaves h' = leaves h /\
  length (routers h') = length (routers h) /\
  forall r, Router_router <$> routers h' !! r = Router_router <$> routers h !! r.

(** ** How the heap may change *)

(** A [Router] keeps its [router]; [consumed] never goes back to [false]. *)
Definition router_le (o o' : RouterObj) : Prop :=
  Router_router o' = Router_router o /\
  (Router_consumed o = true -> Router_consumed o' = true).

(** A [LeafRouter] keeps every field but [consumed]. *)
Definition leaf_le (o o' : LeafRouterObj) : Prop :=
  LeafRouter_router o' = LeafRouter_router o /\
  LeafRouter_method o' = LeafRouter_method o /\
  LeafRouter_path o' = LeafRouter_path o /\
  LeafRouter_handlers o' = LeafRouter_handlers o /\
  (LeafRouter_consumed o = true -> LeafRouter_consumed o' = true).

(** Objects stay where they are and an [ExpressRouter] is only appended to. *)
Record heap_le (h h' : Heap) : Prop := mk_heap_le {
  le_routers : forall r o, routers h !! r = Some o ->
    exists o', routers h' !! r = Some o' /\ router_le o o';
  le_leaves : forall l o, leaves h !! l = Some o ->
    exists o', leaves h' !! l = Some o' /\ leaf_le o o';
  le_express : forall e ls, express h !! e = Some ls ->
    exists ls', express h' !! e = Some (ls ++ ls')
}.

Definition grows {A : Type} (c : M A) : Prop :=
  forall h h', heap_of (c h) = Some h' -> heap_le h h'.

(** ** Failure paths *)

(** [silent c]: [c] registers nothing, and throws nothing but
    UseAfterConsume. *)
Definition silent {A : Type} (c : M A) : Prop :=
  forall h,
    match c h with
    | Val _ h' => express h' = express h
    | Exc e h' => e = UseAfterConsume /\ express h' = express h
    | Dangling => True
    end.

(** [unfailing c]: [c] does not throw. *)
Definition unfailing {A : Type} (c : M A) : Prop :=
  forall h, match c h with Exc _ _ => False | _ => True end.

(** [quiet c]: [c] does not throw UseAfterConsume. *)
Definition quiet {A : Type} (c : M A) : Prop :=
  forall h h', c h <> Exc UseAfterConsume h'.

(** [careful c]: when [c] throws UseAfterConsume, it has registered
    nothing. *)
Definition careful {A : Type} (c : M A) : Prop :=
  forall h h', c h = Exc UseAfterConsume h' -> express h' = express h.

(** ** Further notions *)

(** What [use] hands to the engine for an argument that is not a [Router]
    instance. *)
Definition plain_arg (a : UseArg) : option ExpressArg :=
  match a with
  | UseRouter _ => None
  | UseUndefined => Some ArgUndefined
  | UsePath s => Some (ArgPath s)
  | UseHandler f => Some (ArgHandler f)
  | UseExpressRouter e => Some (ArgRouter e)
  end.

(** A call that consumes no [Router] but its receiver and hands the engine
    arguments it accepts: any call but the two-argument [use], and a [use]
    with no [Router] instance among its arguments whose second argument is a
    function and whose first is a path or a function. *)
Definition plain_call (a : Action) : bool :=
  match a with
  | OnRouter _ (Use first second) =>
      match plain_arg first, plain_arg second with
      | Some x, Some y => engine_accepts [x; y]
      | _, _ => false
      end
  | _ => true
  end.

(** [preserves R c]: [R] relates the heap [c] starts in to the heap it
    leaves, whether it returns or throws. *)
Definition preserves (R : Heap -> Heap -> Prop) {A : Type} (c : M A) : Prop :=
  forall h h', heap_of (c h) = Some h' -> R h h'.

(** Every [LeafRouter] of [h] is still there, field by field. *)
Definition leaves_kept (h h' : Heap) : Prop :=
  forall l o, leaves h !! l = Some o -> leaves h' !! l = Some o.

(** No [Router] was written or allocated. *)
Definition routers_kept (h h' : Heap) : Prop := routers h' = routers h.

(** What [use] hands to the engine for an argument: a [Router] instance
    is replaced by the [ExpressRouter] it wraps, anything else is passed
    as it is. *)
Definition compiled (h : Heap) (a : UseArg) : option ExpressArg :=
  match a with
  | UseRouter r => ArgRouter <$> wrapped h (ARouter r)
  | UseUndefined => Some ArgUndefined
  | UsePath s => Some (ArgPath s)
  | UseHandler f => Some (ArgHandler f)
  | UseExpressRouter e => Some (ArgRouter e)
  end.

(** ** One live handle per chain *)

(** [r] is a [Router] over [e] that is not consumed. *)
Definition live_over (h : Heap) (e r : nat) : Prop :=
  routers h !! r = Some (mkRouter false e).

(** No [ExpressRouter] has two unconsumed [Router]s over it. *)
Definition sole_handles (h : Heap) : Prop :=
  forall e r1 r2, live_over h e r1 -> live_over h e r2 -> r1 = r2.

(** Every [Router] wraps an [ExpressRouter] that exists. *)
Definition routers_allocated (h : Heap) : Prop :=
  forall r o, routers h !! r = Some o -> Router_router o < length (express h).

Definition chain_heap (h : Heap) : Prop :=
  sole_handles h /\ routers_allocated h.

(** Every call but [new Router(router)] with an explicit [ExpressRouter]. *)
Definition chain_call (a : Action) : bool :=
  match a with
  | New (Some _) => false
  | _ => true
  end.

(** No [Router] became live or changed its [ExpressRouter], none was
    allocated, and no [ExpressRouter] disappeared. *)
Definition shrinks (h h' : Heap) : Prop :=
  (forall e r, live_over h' e r -> live_over h e r) /\
  (forall r o', routers h' !! r = Some o' ->
     exists o, routers h !! r = Some o /\ Router_router o = Router_router o') /\
  length (express h) <= length (express h').

Definition throws_shrunk {A : Type} (c : M A) : Prop :=
  forall h e h', c h = Exc e h' -> shrinks h h'.

(** ** The whole run of a chain *)

(** How the handler of [then] leaves when its step fails with [e]:
    [next(e)] in [part_000], a rejected promise in the other two. *)
Definition failure_signal (v : Revision) (e : Exn) : Signal :=
  match v with
  | part_000 => SNextErr e
  | index_ts | part_001 => SRejected e
  end.

Definition after_call (i : Invocation) (r : HandlerRun) : HandlerRun :=
  mkRun (run_req r) (run_res r) (i :: run_calls r) (run_signal r).

(** The steps one after the other on the same request object, stopping at
    the first that fails, and then the terminal handler. *)
Fixpoint pipeline_run (v : Revision) (fns : list Step) (t : Terminal)
    (req : Request) (res : Response) : HandlerRun :=
  match fns with
  | [] => terminal_handler v t req res
  | fn :: fns' =>
      let '(req', c) := fn req in
      match await c with
      | inr _ => after_call (InvStep fn) (pipeline_run v fns' t req' res)
      | inl e => mkRun req' res [InvStep fn] (failure_signal v e)
      end
  end.

(** The terminal function fails with [e] on this request and response. *)
Definition terminal_fails (t : Terminal) (req : Request) (res : Response)
    (e : Exn) : Prop :=
  match t with
  | ByReturn fn => await (fn req).2 = inl e
  | ByFinish fn => await (fn req res).2 = inl e
  end.

(** The README's first endpoint: the route is closed on [this] and a step
    is added to [this] afterwards:
    [this[m](path).then(s1)...then(sn).return(f);
     const r = this.then(guard); r.toExpress()]. *)
Definition guarded_late (v : Revision) (this : nat) (m : Method) (path : string)
    (steps : list Step) (t : Terminal) (guard : Step) : M nat :=
  let* l := Router_method m this path in
  let* l' := LeafRouter_thens v l steps in
  LeafRouter_close v l' t;;
  let* r := Router_then v this guard in
  Router_toExpress r.

(** A request with a string for its path parameters and a number for its
    body. *)
Definition slug_request : Request :=
  mkRequest "GET" "/hello" (JsStr "hello") JsNull (JsNum 3).

(** ** A mounted chain *)


(** Every [Router] of [h] outside [P] is still there, field by field. *)
Definition routers_kept_outside (P : nat -> Prop) (h h' : Heap) : Prop :=
  forall r o, routers h !! r = Some o -> ~ P r -> routers h' !! r = Some o.

(** The receiver of a [Router] call and the [Router] instances among the
    arguments of [use]. *)
Definition consumed_by (this : nat) (c : RouterCall) (r : nat) : Prop :=
  r = this \/
  match c with
  | Use first second => first = UseRouter r \/ second = UseRouter r
  | _ => False
  end.

(** * Properties *)

Lemma router_le_refl o : router_le o o.
Proof. by split. Qed.

Lemma leaf_le_refl o : leaf_le o o.
Proof. by repeat split. Qed.

Lemma heap_le_refl h : heap_le h h.
Proof.
  split; intros i x Hx.
  - exists x. split; [done | apply router_le_refl].
  - exists x. split; [done | apply leaf_le_refl].
  - exists []. by rewrite app_nil_r.
Qed.

Lemma heap_le_trans h1 h2 h3 : heap_le h1 h2 -> heap_le h2 h3 -> heap_le h1 h3.
Proof.
  intros [R1 L1 E1] [R2 L2 E2]. split.
  - intros r o Ho. destruct (R1 _ _ Ho) as (o1 & Ho1 & [Hr1 Hc1]).
    destruct (R2 _ _ Ho1) as (o2 & Ho2 & [Hr2 Hc2]).
    exists o2. split; [done|]. split; [congruence | auto].
  - intros l o Ho. destruct (L1 _ _ Ho) as (o1 & Ho1 & (A1 & B1 & C1 & D1 & F1)).
    destruct (L2 _ _ Ho1) as (o2 & Ho2 & (A2 & B2 & C2 & D2 & F2)).
    exists o2. split; [done|]. repeat split; try congruence. auto.
  - intros e ls Hls. destruct (E1 _ _ Hls) as (ls1 & H1).
    destruct (E2 _ _ H1) as (ls2 & H2).
    exists (ls1 ++ ls2). by rewrite app_assoc.
Qed.

Lemma grows_ret {A : Type} (a : A) : grows (ret a).
Proof. intros h h' [= <-]. apply heap_le_refl. Qed.

Lemma grows_throw {A : Type} (e : Exn) : grows (@throw A e).
Proof. intros h h' [= <-]. apply heap_le_refl. Qed.

Lemma grows_bind {A B : Type} (c : M A) (k : A -> M B) :
  grows c -> (forall a, grows (k a)) -> grows (bind c k).
Proof.
  intros Hc Hk h h'. unfold bind.
  destruct (c h) as [a h1|e h1|] eqn:Ec; simpl; [|by intros [= <-]; apply Hc; rewrite Ec|done].
  intros Hh'. apply heap_le_trans with h1.
  - apply Hc. by rewrite Ec.
  - by apply (Hk a).
Qed.

Lemma heap_le_alloc_router h o :
  heap_le h (mkHeap (routers h ++ [o]) (leaves h) (express h)).
Proof.
  split; simpl; intros i x Hx.
  - exists x. split; [by apply lookup_app_l_Some | apply router_le_refl].
  - exists x. split; [done | apply leaf_le_refl].
  - exists []. by rewrite app_nil_r.
Qed.

Lemma heap_le_alloc_leaf h o :
  heap_le h (mkHeap (routers h) (leaves h ++ [o]) (express h)).
Proof.
  split; simpl; intros i x Hx.
  - exists x. split; [done | apply router_le_refl].
  - exists x. split; [by apply lookup_app_l_Some | apply leaf_le_refl].
  - exists []. by rewrite app_nil_r.
Qed.

Lemma heap_le_alloc_express h ls0 :
  heap_le h (mkHeap (routers h) (leaves h) (express h ++ [ls0])).
Proof.
  split; simpl; intros i x Hx.
  - exists x. split; [done | apply router_le_refl].
  - exists x. split; [done | apply leaf_le_refl].
  - exists []. rewrite app_nil_r. by apply lookup_app_l_Some.
Qed.

Lemma grows_express_new : grows express_new.
Proof. intros h h' [= <-]. apply heap_le_alloc_express. Qed.

Lemma grows_express_register e l : grows (express_register e l).
Proof.
  intros h h'. unfold express_register.
  destruct (express h !! e) as [ls|] eqn:E; simpl; [|done].
  intros [= <-]. split; simpl; intros i x Hx.
  - exists x. split; [done | apply router_le_refl].
  - exists x. split; [done | apply leaf_le_refl].
  - destruct (decide (e = i)) as [->|Hne].
    + exists [l]. rewrite list_lookup_insert_eq by (by eapply lookup_lt_Some).
      congruence.
    + exists []. by rewrite app_nil_r, list_lookup_insert_ne.
Qed.

Lemma leading_functions_all callbacks :
  forallb is_function callbacks = true -> leading_functions callbacks = callbacks.
Proof.
  induction callbacks as [|a rest IH]; simpl; [done|].
  destruct (is_function a); simpl; [|done]. intros Hrest. by rewrite IH.
Qed.

Lemma leading_functions_length callbacks :
  length (leading_functions callbacks) = length callbacks ->
  forallb is_function callbacks = true.
Proof.
  induction callbacks as [|a rest IH]; simpl; [done|].
  destruct (is_function a); simpl; [|done]. intros [= Hlen]. by apply IH.
Qed.

Lemma use_callbacks_accepts e path callbacks h :
  callbacks <> [] ->
  forallb is_function callbacks = true ->
  use_callbacks e path callbacks h
    = express_register e (LayerUse (path ++ callbacks)) h.
Proof.
  intros Hne Hall. unfold use_callbacks.
  destruct callbacks as [|a rest]; [done|].
  rewrite (leading_functions_all _ Hall). simpl in Hall.
  destruct (is_function a) eqn:Ha; [|done]. simpl leading_functions.
  unfold bind. destruct (express_register _ _ h) as [[] h'| |]; [|done..].
  by rewrite decide_True.
Qed.

(** When the engine accepts the arguments, [use] is one registration. *)
Lemma express_use_accepts e args h :
  engine_accepts args = true ->
  express_use e args h = express_register e (LayerUse args) h.
Proof.
  destruct args as [|first rest]; unfold express_use, engine_accepts; [done|].
  destruct (is_function first) eqn:Hfirst.
  - intros Hrest. apply (use_callbacks_accepts e [] (first :: rest)); [done|].
    simpl. by rewrite Hfirst.
  - destruct first; try done. destruct rest as [|a rest]; [done|].
    intros Hrest. by apply (use_callbacks_accepts e [ArgPath s] (a :: rest)).
Qed.

Lemma use_callbacks_Val e path callbacks h u h' :
  use_callbacks e path callbacks h = Val u h' ->
  callbacks <> [] /\ forallb is_function callbacks = true.
Proof.
  unfold use_callbacks. destruct callbacks as [|a rest]; [done|].
  intros Hrun. split; [done|]. apply leading_functions_length.
  revert Hrun. unfold bind, ret.
  destruct (leading_functions (a :: rest)) as [|b ok]; [done|].
  destruct (express_register e _ h) as [[] h1| |]; [|done..].
  by destruct (decide _).
Qed.

(** When the engine does not, [use] never returns. *)
Lemma express_use_Val_accepted e args h u h' :
  express_use e args h = Val u h' -> engine_accepts args = true.
Proof.
  destruct args as [|first rest]; unfold express_use, engine_accepts; [done|].
  destruct (is_function first) eqn:Hfirst.
  - intros [_ Hall]%use_callbacks_Val. simpl in Hall. by rewrite Hfirst in Hall.
  - destruct first; try done. intros [Hne Hall]%use_callbacks_Val.
    by destruct rest.
Qed.

(** Returning or throwing, the engine's [use] leaves the heap as it was or
    as one registration leaves it. *)
Lemma use_callbacks_heap e path callbacks h h' :
  heap_of (use_callbacks e path callbacks h) = Some h' ->
  h' = h \/ exists l, express_register e l h = Val tt h'.
Proof.
  unfold use_callbacks. destruct callbacks as [|a rest]; [by intros [= <-]; left|].
  unfold bind. destruct (leading_functions (a :: rest)) as [|b ok].
  - unfold ret, throw. destruct (decide _); simpl; intros [= <-]; by left.
  - destruct (express_register e _ h) as [[] h1|e1 h1|] eqn:Hreg; [| |done].
    + unfold ret, throw. destruct (decide _); simpl; intros [= <-]; right; by eexists.
    + unfold express_register in Hreg. by destruct (express h !! e).
Qed.

Lemma express_use_heap e args h h' :
  heap_of (express_use e args h) = Some h' ->
  h' = h \/ exists l, express_register e l h = Val tt h'.
Proof.
  destruct args as [|first rest]; unfold express_use; [by intros [= <-]; left|].
  destruct (is_function first); [apply use_callbacks_heap|].
  destruct first; try (by intros [= <-]; left). apply use_callbacks_heap.
Qed.

Lemma grows_express_use e args : grows (express_use e args).
Proof.
  intros h h' [->|[l Hreg]]%express_use_heap; [apply heap_le_refl|].
  apply (grows_express_register e l). by rewrite Hreg.
Qed.

Lemma grows_Router_new router : grows (Router_new router).
Proof.
  unfold Router_new. apply grows_bind.
  - destruct router; [apply grows_ret | apply grows_express_new].
  - intros e h h' [= <-]. apply heap_le_alloc_router.
Qed.

Lemma grows_Router_checkConsumed this : grows (Router_checkConsumed this).
Proof.
  intros h h'. unfold Router_checkConsumed.
  destruct (routers h !! this) as [o|]; [|done].
  destruct (checkConsumed _); intros [= <-]; apply heap_le_refl.
Qed.

Lemma grows_Router_consume this : grows (Router_consume this).
Proof.
  intros h h'. unfold Router_consume, consume, checkConsumed.
  destruct (routers h !! this) as [o|] eqn:E; [|done].
  destruct (Router_consumed o); intros [= <-]; [apply heap_le_refl|].
  split; simpl; intros i x Hx.
  - destruct (decide (this = i)) as [->|Hne].
    + eexists. rewrite list_lookup_insert_eq by (by eapply lookup_lt_Some).
      split; [done|]. split; simpl; [congruence | done].
    + exists x. rewrite list_lookup_insert_ne by done.
      split; [done | apply router_le_refl].
  - exists x. split; [done | apply leaf_le_refl].
  - exists []. by rewrite app_nil_r.
Qed.

Lemma grows_Router_get_router this : grows (Router_get_router this).
Proof.
  intros h h'. unfold Router_get_router.
  destruct (routers h !! this); [|done]. intros [= <-]. apply heap_le_refl.
Qed.

Lemma grows_LeafRouter_new router m path hs : grows (LeafRouter_new router m path hs).
Proof. intros h h' [= <-]. apply heap_le_alloc_leaf. Qed.

Lemma grows_LeafRouter_consume this : grows (LeafRouter_consume this).
Proof.
  intros h h'. unfold LeafRouter_consume, consume, checkConsumed.
  destruct (leaves h !! this) as [o|] eqn:E; [|done].
  destruct (LeafRouter_consumed o); intros [= <-]; [apply heap_le_refl|].
  split; simpl; intros i x Hx.
  - exists x. split; [done | apply router_le_refl].
  - destruct (decide (this = i)) as [->|Hne].
    + eexists. rewrite list_lookup_insert_eq by (by eapply lookup_lt_Some).
      split; [done|]. repeat split; simpl; congruence.
    + exists x. rewrite list_lookup_insert_ne by done.
      split; [done | apply leaf_le_refl].
  - exists []. by rewrite app_nil_r.
Qed.

Lemma grows_LeafRouter_fields this : grows (LeafRouter_fields this).
Proof.
  intros h h'. unfold LeafRouter_fields.
  destruct (leaves h !! this); [|done]. intros [= <-]. apply heap_le_refl.
Qed.

Create HintDb grows.

#[export] Hint Resolve grows_ret grows_throw grows_express_new
  grows_express_register grows_express_use grows_Router_new grows_Router_checkConsumed
  grows_Router_consume grows_Router_get_router grows_LeafRouter_new
  grows_LeafRouter_consume grows_LeafRouter_fields : grows.

Ltac grows_chain :=
  repeat first
    [ solve [auto with grows]
    | apply grows_bind; [|intros] ].

Lemma grows_Router_toExpress this : grows (Router_toExpress this).
Proof. unfold Router_toExpress. grows_chain. Qed.

Lemma grows_compile_arg a : grows (compile_arg a).
Proof.
  destruct a; simpl; auto with grows.
  apply grows_bind; [apply grows_Router_toExpress | auto with grows].
Qed.

#[export] Hint Resolve grows_Router_toExpress grows_compile_arg : grows.

Lemma grows_perform v a : grows (perform v a).
Proof.
  destruct a as [router|this c|this c]; simpl.
  - unfold returning. grows_chain.
  - destruct c; simpl; unfold returning, Router_use, Router_use_fn, Router_then,
      Router_method; grows_chain.
  - destruct c; simpl; unfold returning, LeafRouter_then, LeafRouter_return,
      LeafRouter_finish, express_method; grows_chain.
Qed.

Lemma later_heap_le v h h' : later v h h' -> heap_le h h'.
Proof.
  induction 1 as [h|h a h1 h2 Hstep _ IH]; [apply heap_le_refl|].
  apply heap_le_trans with h1; [|done]. by apply (grows_perform v a).
Qed.

(** ** Consume-once *)

Lemma bind_Val {A B : Type} (c : M A) (k : A -> M B) h b h' :
  bind c k h = Val b h' ->
  exists a h0, c h = Val a h0 /\ k a h0 = Val b h'.
Proof.
  unfold bind. destruct (c h) as [a h0| |]; [|done..]. by exists a, h0.
Qed.

Lemma consumed_flag_stays h h' b :
  heap_le h h' -> consumed_flag h b = Some true -> consumed_flag h' b = Some true.
Proof.
  intros [R L _]. destruct b as [r|l]; simpl.
  - destruct (routers h !! r) as [o|] eqn:E; [|done]. simpl. intros [= Hc].
    destruct (R _ _ E) as (o' & -> & [_ Hm]). simpl. f_equal. auto.
  - destruct (leaves h !! l) as [o|] eqn:E; [|done]. simpl. intros [= Hc].
    destruct (L _ _ E) as (o' & -> & (_ & _ & _ & _ & Hm)). simpl. f_equal. auto.
Qed.

Lemma Router_consume_refuses this h :
  consumed_flag h (ARouter this) = Some true ->
  Router_consume this h = Exc UseAfterConsume h.
Proof.
  simpl. unfold Router_consume. destruct (routers h !! this) as [o|]; [|done].
  simpl. by intros [= ->].
Qed.

Lemma Router_checkConsumed_refuses this h :
  consumed_flag h (ARouter this) = Some true ->
  Router_checkConsumed this h = Exc UseAfterConsume h.
Proof.
  simpl. unfold Router_checkConsumed. destruct (routers h !! this) as [o|]; [|done].
  simpl. by intros [= ->].
Qed.

Lemma LeafRouter_consume_refuses this h :
  consumed_flag h (ALeafRouter this) = Some true ->
  LeafRouter_consume this h = Exc UseAfterConsume h.
Proof.
  simpl. unfold LeafRouter_consume. destruct (leaves h !! this) as [o|]; [|done].
  simpl. by intros [= ->].
Qed.

Lemma consumed_refuses v a b h :
  receiver a = Some b ->
  consumed_flag h b = Some true ->
  perform v a h = Exc UseAfterConsume h.
Proof.
  destruct a as [router|this c|this c]; simpl; [done|..]; intros [= <-] Hc.
  - destruct c; simpl;
      unfold returning, Router_use, Router_use_fn, Router_then, Router_method,
        Router_toExpress, bind;
      by rewrite ?(Router_consume_refuses _ _ Hc),
                 ?(Router_checkConsumed_refuses _ _ Hc).
  - destruct c; simpl;
      unfold returning, LeafRouter_then, LeafRouter_return, LeafRouter_finish, bind;
      by rewrite (LeafRouter_consume_refuses _ _ Hc).
Qed.

Lemma Router_consume_marks this (B : Type) (k : unit -> M B) h b h' :
  (forall u, grows (k u)) ->
  bind (Router_consume this) k h = Val b h' ->
  consumed_flag h' (ARouter this) = Some true.
Proof.
  intros Hk (u & h0 & Hc & Hrest)%bind_Val.
  apply consumed_flag_stays with h0; [apply (Hk u); by rewrite Hrest|].
  revert Hc. unfold Router_consume, consume, checkConsumed, consumed_flag.
  destruct (routers h !! this) as [o|] eqn:E; [|done].
  destruct (Router_consumed o); [done|]. intros ?; simplify_eq. cbn [routers].
  by rewrite list_lookup_insert_eq by (by eapply lookup_lt_Some).
Qed.

Lemma LeafRouter_consume_marks this (B : Type) (k : unit -> M B) h b h' :
  (forall u, grows (k u)) ->
  bind (LeafRouter_consume this) k h = Val b h' ->
  consumed_flag h' (ALeafRouter this) = Some true.
Proof.
  intros Hk (u & h0 & Hc & Hrest)%bind_Val.
  apply consumed_flag_stays with h0; [apply (Hk u); by rewrite Hrest|].
  revert Hc. unfold LeafRouter_consume, consume, checkConsumed, consumed_flag.
  destruct (leaves h !! this) as [o|] eqn:E; [|done].
  destruct (LeafRouter_consumed o); [done|]. intros ?; simplify_eq. cbn [leaves].
  by rewrite list_lookup_insert_eq by (by eapply lookup_lt_Some).
Qed.

Lemma consuming_marks v a b h x h' :
  consuming a = true ->
  receiver a = Some b ->
  perform v a h = Val x h' ->
  consumed_flag h' b = Some true.
Proof.
  destruct a as [router|this c|this c]; simpl; [done|..]; intros Hcons [= <-].
  - destruct c; try done; simpl; unfold returning;
      intros (r & h1 & Hop & [= _ <-])%bind_Val; revert Hop;
      unfold Router_use, Router_use_fn, Router_then, Router_toExpress;
      apply Router_consume_marks; intros; grows_chain.
  - destruct c; simpl; unfold returning;
      intros (r & h1 & Hop & [= _ <-])%bind_Val; revert Hop;
      unfold LeafRouter_then, LeafRouter_return, LeafRouter_finish, express_method;
      apply LeafRouter_consume_marks; intros; grows_chain.
Qed.

(** C1. Once a consuming operation ([use], [then], [return], [finish],
    [toExpress]) has succeeded on a builder, every later operation on that
    instance, method factories included, throws UseAfterConsume, whatever
    the client did to the heap in between. *)
Theorem consumed_builder_rejects_every_call
    (v : Revision) (a a' : Action) (b : Builder) (x : Value) (h h1 h2 : Heap) :
  consuming a = true ->
  receiver a = Some b ->
  perform v a h = Val x h1 ->
  later v h1 h2 ->
  receiver a' = Some b ->
  perform v a' h2 = Exc UseAfterConsume h2.
Proof.
  intros Hcons Hrecv Hrun Hlater Hrecv'.
  apply consumed_refuses with b; [done|].
  apply consumed_flag_stays with h1; [by eapply later_heap_le|].
  by eapply consuming_marks.
Qed.

(** After [r.toExpress()] on a fresh router, [r.get("/")] throws. *)
Lemma consumed_builder_rejects_every_call_witness :
  perform index_ts (OnRouter 0 ToExpress) fresh_heap
    = Val (VExpressRouter 0) (mkHeap [mkRouter true 0] [] [[]]) /\
  perform index_ts (OnRouter 0 (Method_ get "/")) (mkHeap [mkRouter true 0] [] [[]])
    = Exc UseAfterConsume (mkHeap [mkRouter true 0] [] [[]]).
Proof.
  split; [reflexivity|].
  apply (consumed_builder_rejects_every_call index_ts
           (OnRouter 0 ToExpress) (OnRouter 0 (Method_ get "/")) (ARouter 0)
           (VExpressRouter 0) fresh_heap (mkHeap [mkRouter true 0] [] [[]])
           (mkHeap [mkRouter true 0] [] [[]])).
  - reflexivity.
  - reflexivity.
  - reflexivity.
  - apply later_now.
  - reflexivity.
Defined.

(** ** Delegation consumes the delegate *)

Lemma compile_arg_marks d h a h' :
  compile_arg (UseRouter d) h = Val a h' ->
  consumed_flag h' (ARouter d) = Some true.
Proof.
  simpl. intros (e & h0 & Hc & [= _ <-])%bind_Val. revert Hc.
  unfold Router_toExpress. apply Router_consume_marks. intros; grows_chain.
Qed.

Lemma Router_use_marks_delegate this first second d h r' h' :
  Router_use this first second h = Val r' h' ->
  first = UseRouter d \/ second = UseRouter d ->
  consumed_flag h' (ARouter d) = Some true.
Proof.
  unfold Router_use.
  intros (u & h0 & _ & (f' & ha & Hfirst & (s' & hb & Hsecond & Hrest)%bind_Val)%bind_Val)%bind_Val.
  assert (heap_le hb h') as Hle.
  { revert Hrest. generalize hb h'. intros hx hy Hxy.
    assert (grows (let* e := Router_get_router this in
                   express_use e [f'; s'];; Router_new (Some e))) as G
      by grows_chain.
    apply G. by rewrite Hxy. }
  intros [->| ->].
  - apply consumed_flag_stays with ha.
    + apply heap_le_trans with hb; [|done].
      apply (grows_compile_arg second). by rewrite Hsecond.
    + by eapply compile_arg_marks.
  - apply consumed_flag_stays with hb; [done|]. by eapply compile_arg_marks.
Qed.

(** C10. A [Router] passed to [use], as first or as second argument, is
    compiled with [toExpress()] and so consumed by a [use] that returns:
    every later call on it, method factories included, throws
    UseAfterConsume. *)
Theorem use_consumes_delegate
    (v : Revision) (this d : nat) (first second : UseArg) (r' : nat)
    (h h1 h2 : Heap) (c : RouterCall) :
  Router_use this first second h = Val r' h1 ->
  first = UseRouter d \/ second = UseRouter d ->
  later v h1 h2 ->
  Router_call v d c h2 = Exc UseAfterConsume h2.
Proof.
  intros Huse Hd Hlater.
  apply (consumed_refuses v (OnRouter d c) (ARouter d)); [done|].
  apply consumed_flag_stays with h1; [by eapply later_heap_le|].
  by eapply Router_use_marks_delegate.
Qed.

(** [main.use("/blog", blog)] and then [blog.get("/")]. *)
Lemma use_consumes_delegate_witness :
  Router_use 0 (UsePath "/blog") (UseRouter 1) two_routers
    = Val 2 two_routers_used /\
  Router_call index_ts 1 (Method_ get "/") two_routers_used
    = Exc UseAfterConsume two_routers_used.
Proof.
  split; [reflexivity|].
  apply (use_consumes_delegate index_ts 0 1 (UsePath "/blog") (UseRouter 1) 2
           two_routers two_routers_used two_routers_used (Method_ get "/")).
  - reflexivity.
  - right. reflexivity.
  - apply later_now.
Defined.

(** ** Failing before any registration *)

Lemma silent_careful {A : Type} (c : M A) : silent c -> careful c.
Proof. intros Hc h h' Heq. specialize (Hc h). rewrite Heq in Hc. by destruct Hc. Qed.

Lemma quiet_careful {A : Type} (c : M A) : quiet c -> careful c.
Proof. intros Hc h h' Heq. by destruct (Hc h h'). Qed.

Lemma unfailing_quiet {A : Type} (c : M A) : unfailing c -> quiet c.
Proof. intros Hc h h' Heq. specialize (Hc h). by rewrite Heq in Hc. Qed.

Lemma silent_ret {A : Type} (a : A) : silent (ret a).
Proof. by intros h. Qed.

Lemma unfailing_ret {A : Type} (a : A) : unfailing (ret a).
Proof. by intros h. Qed.

Lemma silent_bind {A B : Type} (c : M A) (k : A -> M B) :
  silent c -> (forall a, silent (k a)) -> silent (bind c k).
Proof.
  intros Hc Hk h. unfold bind. specialize (Hc h).
  destruct (c h) as [a h0|e h0|]; [|done..].
  specialize (Hk a h0). destruct (k a h0) as [b h1|e h1|]; [| |done].
  - congruence.
  - destruct Hk. split; congruence.
Qed.

Lemma unfailing_bind {A B : Type} (c : M A) (k : A -> M B) :
  unfailing c -> (forall a, unfailing (k a)) -> unfailing (bind c k).
Proof.
  intros Hc Hk h. unfold bind. specialize (Hc h).
  destruct (c h) as [a h0|e h0|]; [|done..]. apply Hk.
Qed.

Lemma quiet_bind {A B : Type} (c : M A) (k : A -> M B) :
  quiet c -> (forall a, quiet (k a)) -> quiet (bind c k).
Proof.
  intros Hc Hk h h'. unfold bind.
  destruct (c h) as [a h0|e h0|] eqn:Ec; [apply Hk| |done].
  intros [= -> ->]. by destruct (Hc h h').
Qed.

Lemma careful_bind {A B : Type} (c : M A) (k : A -> M B) :
  silent c -> (forall a, careful (k a)) -> careful (bind c k).
Proof.
  intros Hc Hk h h'. unfold bind. specialize (Hc h).
  destruct (c h) as [a h0|e h0|]; [| |done].
  - intros Hka. rewrite (Hk a h0 h' Hka). done.
  - intros [= -> ->]. by destruct Hc.
Qed.

Lemma silent_Router_consume this : silent (Router_consume this).
Proof.
  intros h. unfold Router_consume, consume, checkConsumed.
  destruct (routers h !! this) as [o|]; [|done]. by destruct (Router_consumed o).
Qed.

Lemma silent_Router_checkConsumed this : silent (Router_checkConsumed this).
Proof.
  intros h. unfold Router_checkConsumed, checkConsumed.
  destruct (routers h !! this) as [o|]; [|done]. by destruct (Router_consumed o).
Qed.

Lemma silent_Router_get_router this : silent (Router_get_router this).
Proof. intros h. unfold Router_get_router. by destruct (routers h !! this). Qed.

Lemma silent_LeafRouter_consume this : silent (LeafRouter_consume this).
Proof.
  intros h. unfold LeafRouter_consume, consume, checkConsumed.
  destruct (leaves h !! this) as [o|]; [|done]. by destruct (LeafRouter_consumed o).
Qed.

Lemma silent_LeafRouter_fields this : silent (LeafRouter_fields this).
Proof. intros h. unfold LeafRouter_fields. by destruct (leaves h !! this). Qed.

Lemma silent_Router_toExpress this : silent (Router_toExpress this).
Proof.
  apply silent_bind; [apply silent_Router_consume|].
  intros _. apply silent_Router_get_router.
Qed.

Lemma silent_compile_arg a : silent (compile_arg a).
Proof.
  destruct a; simpl; try apply silent_ret.
  apply silent_bind; [apply silent_Router_toExpress | intros; apply silent_ret].
Qed.

Lemma unfailing_express_register e l : unfailing (express_register e l).
Proof. intros h. unfold express_register. by destruct (express h !! e). Qed.

Lemma unfailing_Router_new router : unfailing (Router_new router).
Proof.
  apply unfailing_bind; [|by intros e h].
  destruct router; [apply unfailing_ret | by intros h].
Qed.

Lemma unfailing_LeafRouter_new router m path hs :
  unfailing (LeafRouter_new router m path hs).
Proof. by intros h. Qed.

(** The engine's [use] throws nothing but a [TypeError]. *)
Lemma use_callbacks_Exc e path callbacks h x h' :
  use_callbacks e path callbacks h = Exc x h' -> x = TypeError.
Proof.
  unfold use_callbacks. destruct callbacks as [|a rest]; [by intros [= <- _]|].
  unfold bind, ret, throw. destruct (leading_functions (a :: rest)) as [|b ok].
  - destruct (decide _); by intros [= <- _].
  - destruct (express_register e _ h) as [[] h1|e1 h1|] eqn:Hreg; [| |done].
    + destruct (decide _); by intros [= <- _].
    + unfold express_register in Hreg. by destruct (express h !! e).
Qed.

Lemma express_use_Exc e args h x h' :
  express_use e args h = Exc x h' -> x = TypeError.
Proof.
  destruct args as [|first rest]; unfold express_use; [by intros [= <- _]|].
  destruct (is_function first); [apply use_callbacks_Exc|].
  destruct first; try (by intros [= <- _]). apply use_callbacks_Exc.
Qed.

Lemma quiet_express_use e args : quiet (express_use e args).
Proof. intros h h' Heq. by apply express_use_Exc in Heq. Qed.

Create HintDb careful.

#[export] Hint Resolve silent_ret silent_Router_consume silent_Router_checkConsumed
  silent_Router_get_router silent_LeafRouter_consume silent_LeafRouter_fields
  silent_Router_toExpress silent_compile_arg unfailing_ret
  unfailing_express_register unfailing_Router_new unfailing_LeafRouter_new
  quiet_express_use : careful.

Ltac unfailing_chain :=
  repeat first
    [ solve [auto with careful]
    | apply unfailing_bind; [|intros] ].

Ltac quiet_chain :=
  repeat first
    [ solve [auto with careful]
    | apply unfailing_quiet; solve [unfailing_chain]
    | apply quiet_bind; [|intros] ].

Ltac careful_chain :=
  repeat first
    [ apply careful_bind; [solve [auto with careful]|intros]
    | apply silent_careful; solve [auto with careful]
    | apply quiet_careful; solve [quiet_chain] ].

Lemma careful_returning {A : Type} (f : A -> Value) (c : M A) :
  careful c -> careful (returning f c).
Proof.
  intros Hc h h'. unfold returning, bind, ret.
  destruct (c h) as [a h0|e h0|] eqn:Ec; [done| |done].
  intros [= -> ->]. by apply Hc.
Qed.

Lemma careful_perform v a : careful (perform v a).
Proof.
  destruct a as [router|this c|this c]; simpl.
  - apply careful_returning, quiet_careful, unfailing_quiet. auto with careful.
  - destruct c; simpl; apply careful_returning;
      unfold Router_use, Router_use_fn, Router_then, Router_method,
        Router_toExpress; careful_chain.
  - destruct c; simpl; apply careful_returning;
      unfold LeafRouter_then, LeafRouter_return, LeafRouter_finish,
        express_method; careful_chain.
Qed.

(** [main.use("/blog", blog)] with [blog] already consumed: [use] has
    consumed [main] when [blog.toExpress()] throws, and has registered
    nothing. *)
Example use_with_consumed_delegate :
  perform index_ts (OnRouter 0 (Use (UsePath "/blog") (UseRouter 1)))
          delegate_consumed_heap
    = Exc UseAfterConsume (mkHeap [mkRouter true 0; mkRouter true 1] [] [[]; []]).
Proof. reflexivity. Qed.

(** C7. A call on a builder that is already consumed, for instance [then]
    on a [Router] that went through [toExpress()], throws UseAfterConsume
    before doing anything: the whole heap, the compiled [ExpressRouter]
    with it, is as it was.  And whatever builder call throws
    UseAfterConsume, it has registered no handler: every [ExpressRouter]
    is as it was. *)
Theorem failed_call_registers_nothing (v : Revision) (a : Action) (h : Heap) :
  (forall b, receiver a = Some b -> consumed_flag h b = Some true ->
     perform v a h = Exc UseAfterConsume h) /\
  (forall h', perform v a h = Exc UseAfterConsume h' ->
     express h' = express h).
Proof.
  split.
  - intros b Hb Hc. by apply consumed_refuses with b.
  - intros h' Hrun. by apply (careful_perform v a h).
Qed.

(** [r.then(f)] after [r.toExpress()], with one layer already compiled;
    and [main.use("/blog", blog)] with [blog] consumed. *)
Lemma failed_call_registers_nothing_witness :
  (perform index_ts (OnRouter 0 (Then step_ok)) compiled_heap
     = Exc UseAfterConsume compiled_heap /\
   express compiled_heap = [[LayerUse [ArgHandler (then_handler index_ts step_ok)]]]) /\
  express (mkHeap [mkRouter true 0; mkRouter true 1] [] [[]; []])
    = express delegate_consumed_heap.
Proof.
  split; [split; [|reflexivity]|].
  - apply (proj1 (failed_call_registers_nothing index_ts
                    (OnRouter 0 (Then step_ok)) compiled_heap) (ARouter 0)).
    + reflexivity.
    + reflexivity.
  - apply (proj2 (failed_call_registers_nothing index_ts
                    (OnRouter 0 (Use (UsePath "/blog") (UseRouter 1)))
                    delegate_consumed_heap)).
    reflexivity.
Defined.

(** ** What a returning call did *)

Lemma Router_consume_Val this h u h' :
  Router_consume this h = Val u h' ->
  exists e, routers h !! this = Some (mkRouter false e) /\
    h' = mkHeap (<[this := mkRouter true e]> (routers h)) (leaves h) (express h).
Proof.
  unfold Router_consume, consume, checkConsumed.
  destruct (routers h !! this) as [[[] e]|]; simpl; [done| |done].
  intros ?; simplify_eq. by exists e.
Qed.

Lemma Router_checkConsumed_Val this h u h' :
  Router_checkConsumed this h = Val u h' ->
  h' = h /\ exists e, routers h !! this = Some (mkRouter false e).
Proof.
  unfold Router_checkConsumed, checkConsumed.
  destruct (routers h !! this) as [[[] e]|]; simpl; [done| |done].
  intros ?; simplify_eq. split; [done | by exists e].
Qed.

Lemma Router_get_router_Val this h e h' :
  Router_get_router this h = Val e h' ->
  h' = h /\ Router_router <$> routers h !! this = Some e.
Proof.
  unfold Router_get_router. destruct (routers h !! this) as [o|]; [|done].
  by intros ?; simplify_eq.
Qed.

Lemma express_register_Val e l h u h' :
  express_register e l h = Val u h' ->
  routers h' = routers h /\ leaves h' = leaves h /\ registered h h' e l.
Proof.
  unfold express_register, registered.
  destruct (express h !! e) as [ls|] eqn:E; [|done].
  intros ?; simplify_eq. simpl. repeat split. by exists ls.
Qed.

Lemma LeafRouter_consume_Val this h u h' :
  LeafRouter_consume this h = Val u h' ->
  exists o, leaves h !! this = Some o /\ LeafRouter_consumed o = false /\
    h' = mkHeap (routers h)
           (<[this := mkLeafRouter true (LeafRouter_router o) (LeafRouter_method o)
                        (LeafRouter_path o) (LeafRouter_handlers o)]> (leaves h))
           (express h).
Proof.
  unfold LeafRouter_consume, consume, checkConsumed.
  destruct (leaves h !! this) as [o|]; [|done].
  destruct (LeafRouter_consumed o) eqn:Ec; [done|].
  intros ?; simplify_eq. by exists o.
Qed.

Lemma LeafRouter_fields_Val this h o h' :
  LeafRouter_fields this h = Val o h' -> h' = h /\ leaves h !! this = Some o.
Proof.
  unfold LeafRouter_fields. destruct (leaves h !! this) as [o'|]; [|done].
  by intros ?; simplify_eq.
Qed.

Lemma same_shape_refl h : same_shape h h.
Proof. by repeat split. Qed.

Lemma same_shape_trans h1 h2 h3 :
  same_shape h1 h2 -> same_shape h2 h3 -> same_shape h1 h3.
Proof.
  intros (A1 & B1 & C1 & D1) (A2 & B2 & C2 & D2).
  split; [congruence|]. split; [congruence|]. split; [congruence|].
  intros r. by rewrite D2.
Qed.

Lemma same_shape_consume this e h :
  routers h !! this = Some (mkRouter false e) ->
  same_shape h (mkHeap (<[this := mkRouter true e]> (routers h)) (leaves h) (express h)).
Proof.
  intros Hthis. split; [done|]. split; [done|]. simpl.
  split; [by rewrite length_insert|].
  intros r. destruct (decide (this = r)) as [->|Hne].
  - rewrite list_lookup_insert_eq by (by eapply lookup_lt_Some). by rewrite Hthis.
  - by rewrite list_lookup_insert_ne.
Qed.

Lemma Router_consume_shape this h u h' :
  Router_consume this h = Val u h' -> same_shape h h'.
Proof. intros (e & He & ->)%Router_consume_Val. by apply same_shape_consume. Qed.

Lemma Router_toExpress_Val this h e h' :
  Router_toExpress this h = Val e h' ->
  same_shape h h' /\ Router_router <$> routers h !! this = Some e.
Proof.
  unfold Router_toExpress.
  intros (u & h0 & Hc & [-> He]%Router_get_router_Val)%bind_Val.
  pose proof (Router_consume_shape _ _ _ _ Hc) as Hs. split; [done|].
  destruct Hs as (_ & _ & _ & Hr). by rewrite <- Hr.
Qed.

Lemma compile_arg_shape a h a' h' :
  compile_arg a h = Val a' h' -> same_shape h h'.
Proof.
  destruct a; simpl;
    try (unfold ret; intros ?; simplify_eq; apply same_shape_refl).
  intros (e & h0 & [Hs _]%Router_toExpress_Val & Hret)%bind_Val.
  unfold ret in Hret. by simplify_eq.
Qed.

Lemma lookup_fresh_None {A : Type} (l : list A) : l !! length l = None.
Proof. by apply lookup_ge_None_2. Qed.

Lemma lookup_fresh_Some {A : Type} (l : list A) (x : A) :
  (l ++ [x]) !! length l = Some x.
Proof. by apply list_lookup_middle. Qed.

Lemma Router_new_Some_Val e h r' h' :
  Router_new (Some e) h = Val r' h' ->
  leaves h' = leaves h /\ express h' = express h /\
  routers h !! r' = None /\ routers h' !! r' = Some (mkRouter false e).
Proof.
  unfold Router_new, bind, ret. intros ?; simplify_eq. simpl.
  split; [done|]. split; [done|].
  split; [apply lookup_fresh_None | apply lookup_fresh_Some].
Qed.

Lemma LeafRouter_new_Val e m path hs h l' h' :
  LeafRouter_new e m path hs h = Val l' h' ->
  routers h' = routers h /\ express h' = express h /\
  l' = length (leaves h) /\
  leaves h' = leaves h ++ [mkLeafRouter false e m path (default [] hs)].
Proof. unfold LeafRouter_new. by intros ?; simplify_eq. Qed.

Lemma same_shape_fresh h hb r :
  same_shape h hb -> routers hb !! r = None -> routers h !! r = None.
Proof.
  intros (_ & _ & Hlen & _) Hr. apply lookup_ge_None. rewrite <- Hlen.
  by apply lookup_ge_None.
Qed.

Lemma same_shape_registered h hb h' e l :
  same_shape h hb -> registered hb h' e l -> registered h h' e l.
Proof. intros (He & _) (ls & Hls & Hh'). exists ls. by rewrite <- He. Qed.

Lemma express_use_Val e args h u h' :
  express_use e args h = Val u h' ->
  engine_accepts args = true /\
  routers h' = routers h /\ leaves h' = leaves h /\
  registered h h' e (LayerUse args).
Proof.
  intros Hrun. pose proof (express_use_Val_accepted _ _ _ _ _ Hrun) as Hok.
  split; [done|]. rewrite (express_use_accepts e args h Hok) in Hrun.
  by apply express_register_Val in Hrun.
Qed.

(** The common tail of [use] and [then]:
    [this.router.use(args...); return new Router(this.router);]. *)
Lemma register_and_renew_Val this args hb r' h' :
  (let* e := Router_get_router this in
   express_use e args;; Router_new (Some e)) hb = Val r' h' ->
  exists e, Router_router <$> routers hb !! this = Some e /\
    registered hb h' e (LayerUse args) /\
    leaves h' = leaves hb /\
    routers hb !! r' = None /\
    routers h' !! r' = Some (mkRouter false e).
Proof.
  intros (e & h1 & [-> He]%Router_get_router_Val
            & (u & h2 & (_ & Hr & Hl & Hreg)%express_use_Val
               & (Hl' & He' & Hfresh & Hnew)%Router_new_Some_Val)%bind_Val)%bind_Val.
  exists e. split; [done|]. split.
  { destruct Hreg as (ls & Hls & Hh2). exists ls. split; [done | congruence]. }
  split; [congruence|]. split; [congruence | done].
Qed.

Lemma Router_use_Val this first second h r' h' :
  Router_use this first second h = Val r' h' ->
  exists e a1 a2, Router_router <$> routers h !! this = Some e /\
    registered h h' e (LayerUse [a1; a2]) /\
    leaves h' = leaves h /\
    routers h !! r' = None /\
    routers h' !! r' = Some (mkRouter false e).
Proof.
  unfold Router_use.
  intros (u & h0 & S0%Router_consume_shape
            & (a1 & ha & Sa%compile_arg_shape
               & (a2 & hb & Sb%compile_arg_shape & Htail)%bind_Val)%bind_Val)%bind_Val.
  assert (same_shape h hb) as S
    by (eapply same_shape_trans; [|done]; by eapply same_shape_trans).
  destruct (register_and_renew_Val _ _ _ _ _ Htail) as (e & He & Hreg & Hl & Hf & Hn).
  exists e, a1, a2. pose proof S as (SE & SL & SN & SR).
  split; [by rewrite <- SR|]. split; [by eapply same_shape_registered|].
  split; [congruence|]. split; [by eapply same_shape_fresh | done].
Qed.

Lemma Router_use_fn_Val this fn h r' h' :
  Router_use_fn this fn h = Val r' h' ->
  exists e, Router_router <$> routers h !! this = Some e /\
    registered h h' e (LayerUse [ArgHandler fn]) /\
    leaves h' = leaves h /\
    routers h !! r' = None /\
    routers h' !! r' = Some (mkRouter false e).
Proof.
  unfold Router_use_fn.
  intros (u & h0 & S%Router_consume_shape & Htail)%bind_Val.
  destruct (register_and_renew_Val _ _ _ _ _ Htail) as (e & He & Hreg & Hl & Hf & Hn).
  exists e. pose proof S as (SE & SL & SN & SR).
  split; [by rewrite <- SR|]. split; [by eapply same_shape_registered|].
  split; [congruence|]. split; [by eapply same_shape_fresh | done].
Qed.

Lemma Router_then_Val v this fn h r' h' :
  Router_then v this fn h = Val r' h' ->
  exists e, Router_router <$> routers h !! this = Some e /\
    registered h h' e (LayerUse [ArgHandler (then_handler v fn)]) /\
    leaves h' = leaves h /\
    routers h !! r' = None /\
    routers h' !! r' = Some (mkRouter false e).
Proof.
  unfold Router_then.
  intros (u & h0 & S%Router_consume_shape & Htail)%bind_Val.
  destruct (register_and_renew_Val _ _ _ _ _ Htail) as (e & He & Hreg & Hl & Hf & Hn).
  exists e. pose proof S as (SE & SL & SN & SR).
  split; [by rewrite <- SR|]. split; [by eapply same_shape_registered|].
  split; [congruence|]. split; [by eapply same_shape_fresh | done].
Qed.

Lemma Router_method_Val m this path h l' h' :
  Router_method m this path h = Val l' h' ->
  exists e, Router_router <$> routers h !! this = Some e /\
    routers h' = routers h /\ express h' = express h /\
    leaves h !! l' = None /\
    leaves h' !! l' = Some (mkLeafRouter false e m path []).
Proof.
  unfold Router_method.
  intros (u & h0 & [-> _]%Router_checkConsumed_Val
            & (e & h1 & [-> He]%Router_get_router_Val
               & (Hr & Hx & -> & Hn)%LeafRouter_new_Val)%bind_Val)%bind_Val.
  exists e. split; [done|]. split; [done|]. split; [done|].
  split; [apply lookup_fresh_None|]. rewrite Hn. apply lookup_fresh_Some.
Qed.

Lemma LeafRouter_then_Val v this fn h l' h' :
  LeafRouter_then v this fn h = Val l' h' ->
  exists o, leaves h !! this = Some o /\ LeafRouter_consumed o = false /\
    routers h' = routers h /\ express h' = express h /\
    leaves h' !! this
      = Some (mkLeafRouter true (LeafRouter_router o) (LeafRouter_method o)
                (LeafRouter_path o) (LeafRouter_handlers o)) /\
    leaves h !! l' = None /\
    leaves h' !! l'
      = Some (mkLeafRouter false (LeafRouter_router o) (LeafRouter_method o)
                (LeafRouter_path o) (LeafRouter_handlers o ++ [then_handler v fn])).
Proof.
  unfold LeafRouter_then.
  intros (u & h0 & (o & Ho & Hc & ->)%LeafRouter_consume_Val
            & (o' & h1 & [-> Ho']%LeafRouter_fields_Val
               & (Hr & Hx & -> & Hn)%LeafRouter_new_Val)%bind_Val)%bind_Val.
  simpl in *. pose proof (lookup_lt_Some _ _ _ Ho) as Hlt.
  rewrite list_lookup_insert_eq in Ho' by done. simplify_eq. simpl in *.
  exists o. split; [done|]. split; [done|]. split; [done|]. split; [done|].
  rewrite Hn, length_insert. split; [|split].
  - rewrite lookup_app_l by (by rewrite length_insert).
    by apply list_lookup_insert_eq.
  - apply lookup_fresh_None.
  - apply list_lookup_middle. by rewrite length_insert.
Qed.

(** The common shape of [return] and [finish]:
    [this.consume(); this.router[this.method](this.path, ...this.handlers, last)]. *)
Lemma LeafRouter_register_Val this (last : RequestHandler) h u h' :
  (LeafRouter_consume this;;
   let* o := LeafRouter_fields this in
   express_method (LeafRouter_router o) (LeafRouter_method o) (LeafRouter_path o)
                  (LeafRouter_handlers o ++ [last])) h = Val u h' ->
  exists o, leaves h !! this = Some o /\ LeafRouter_consumed o = false /\
    routers h' = routers h /\
    registered h h' (LeafRouter_router o)
      (LayerRoute (LeafRouter_method o) (LeafRouter_path o)
                  (LeafRouter_handlers o ++ [last])).
Proof.
  intros (u0 & h0 & (o & Ho & Hc & ->)%LeafRouter_consume_Val
            & (o' & h1 & [-> Ho']%LeafRouter_fields_Val
               & (Hr & Hl & Hreg)%express_register_Val)%bind_Val)%bind_Val.
  simpl in *. rewrite list_lookup_insert_eq in Ho' by (by eapply lookup_lt_Some).
  simplify_eq. simpl in *. by exists o.
Qed.

Lemma LeafRouter_return_Val v this fn h u h' :
  LeafRouter_return v this fn h = Val u h' ->
  exists o, leaves h !! this = Some o /\ LeafRouter_consumed o = false /\
    routers h' = routers h /\
    registered h h' (LeafRouter_router o)
      (LayerRoute (LeafRouter_method o) (LeafRouter_path o)
                  (LeafRouter_handlers o ++ [return_handler v fn])).
Proof. apply LeafRouter_register_Val. Qed.

Lemma LeafRouter_finish_Val v this fn h u h' :
  LeafRouter_finish v this fn h = Val u h' ->
  exists o, leaves h !! this = Some o /\ LeafRouter_consumed o = false /\
    routers h' = routers h /\
    registered h h' (LeafRouter_router o)
      (LayerRoute (LeafRouter_method o) (LeafRouter_path o)
                  (LeafRouter_handlers o ++ [finish_handler v fn])).
Proof. apply LeafRouter_register_Val. Qed.

Lemma returning_Val {A : Type} (f : A -> Value) (c : M A) h x h' :
  returning f c h = Val x h' -> exists a, c h = Val a h' /\ x = f a.
Proof.
  intros (a & h0 & Hc & Hret)%bind_Val. unfold ret in Hret. simplify_eq.
  by exists a.
Qed.

(** What a call that returns hands back: [use] and [then] a [Router] that
    did not exist before, is not consumed and wraps the receiver's own
    [ExpressRouter]; [get], [post], [put] and [delete] a [LeafRouter] over
    that same [ExpressRouter]; and so on down a [LeafRouter] chain.
    Whatever the call registered was appended to that one [ExpressRouter],
    which is what [toExpress] returns. *)
Lemma returned_builder_is_derived
    (v : Revision) (a : Action) (b : Builder) (e : nat) (x : Value) (h h' : Heap) :
  receiver a = Some b ->
  wrapped h b = Some e ->
  perform v a h = Val x h' ->
  derived a h h' e x /\ writes_only_to h h' e.
Proof.
  destruct a as [router|this c|this c]; simpl; [done|..]; intros [= <-]; simpl.
  - intros He. destruct c; simpl; intros (r & Hop & ->)%returning_Val; simpl.
    + apply Router_use_Val in Hop as (e' & a1 & a2 & He' & Hreg & _ & Hf & Hn).
      rewrite He in He'. simplify_eq. split; [done|]. right. by eexists.
    + apply Router_use_fn_Val in Hop as (e' & He' & Hreg & _ & Hf & Hn).
      rewrite He in He'. simplify_eq. split; [done|]. right. by eexists.
    + apply Router_then_Val in Hop as (e' & He' & Hreg & _ & Hf & Hn).
      rewrite He in He'. simplify_eq. split; [done|]. right. by eexists.
    + apply Router_method_Val in Hop as (e' & He' & _ & Hx & Hf & Hn).
      rewrite He in He'. simplify_eq. split; [done|]. by left.
    + apply Router_toExpress_Val in Hop as [(Hx & _) He'].
      rewrite He in He'. simplify_eq. split; [done|]. by left.
  - intros He. destruct c; simpl; intros (r & Hop & ->)%returning_Val; simpl.
    + apply LeafRouter_then_Val in Hop as (o & Ho & _ & _ & Hx & _ & Hf & Hn).
      rewrite Ho in He. simpl in He. simplify_eq.
      split; [|by left]. split; [done|]. by eexists _, _, _.
    + apply LeafRouter_return_Val in Hop as (o & Ho & _ & _ & Hreg).
      rewrite Ho in He. simpl in He. simplify_eq.
      split; [done|]. right. by eexists.
    + apply LeafRouter_finish_Val in Hop as (o & Ho & _ & _ & Hreg).
      rewrite Ho in He. simpl in He. simplify_eq.
      split; [done|]. right. by eexists.
Qed.

(** ** Building a chain *)

Lemma Router_then_run v this fn e ls h :
  routers h !! this = Some (mkRouter false e) ->
  express h !! e = Some ls ->
  Router_then v this fn h
    = Val (length (routers h))
        (mkHeap (<[this := mkRouter true e]> (routers h) ++ [mkRouter false e])
                (leaves h)
                (<[e := ls ++ [use_layer v fn]]> (express h))).
Proof.
  intros Hthis He. pose proof (lookup_lt_Some _ _ _ Hthis) as Hlt.
  unfold Router_then, bind, Router_consume, Router_get_router.
  rewrite Hthis. cbn [consume checkConsumed Router_consumed Router_router].
  cbn [routers]. rewrite list_lookup_insert_eq by done. cbn [Router_router].
  rewrite express_use_accepts by done.
  unfold express_register, Router_new, bind, ret. cbn [express routers leaves].
  rewrite He. cbn [routers leaves express]. by rewrite length_insert.
Qed.

Lemma Router_thens_run v fns : forall this e ls h,
  routers h !! this = Some (mkRouter false e) ->
  express h !! e = Some ls ->
  exists r h', Router_thens v this fns h = Val r h' /\
    routers h' !! r = Some (mkRouter false e) /\
    express h' !! e = Some (ls ++ map (use_layer v) fns).
Proof.
  induction fns as [|fn fns IH]; intros this e ls h Hthis He; simpl.
  - exists this, h. by rewrite app_nil_r.
  - unfold bind. rewrite (Router_then_run v this fn e ls h Hthis He).
    pose proof (lookup_lt_Some _ _ _ Hthis) as Hlt.
    pose proof (lookup_lt_Some _ _ _ He) as Hlt'.
    edestruct (IH (length (routers h)) e (ls ++ [use_layer v fn])) as (r & h' & Hrun & Hr & Hx);
      [| |exists r, h'; split; [exact Hrun|]; split; [exact Hr|]].
    + simpl. apply list_lookup_middle. by rewrite length_insert.
    + simpl. by apply list_lookup_insert_eq.
    + by rewrite Hx, <- app_assoc.
Qed.

Lemma Router_method_run m this path e h :
  routers h !! this = Some (mkRouter false e) ->
  Router_method m this path h
    = Val (length (leaves h))
        (mkHeap (routers h) (leaves h ++ [mkLeafRouter false e m path []])
                (express h)).
Proof.
  intros Hthis.
  unfold Router_method, bind, Router_checkConsumed, Router_get_router, LeafRouter_new.
  rewrite Hthis. simpl. by rewrite Hthis.
Qed.

Lemma LeafRouter_then_run v this fn e m path hs h :
  leaves h !! this = Some (mkLeafRouter false e m path hs) ->
  LeafRouter_then v this fn h
    = Val (length (leaves h))
        (mkHeap (routers h)
                (<[this := mkLeafRouter true e m path hs]> (leaves h)
                   ++ [mkLeafRouter false e m path (hs ++ [then_handler v fn])])
                (express h)).
Proof.
  intros Hthis. pose proof (lookup_lt_Some _ _ _ Hthis) as Hlt.
  unfold LeafRouter_then, bind, LeafRouter_consume, LeafRouter_fields, LeafRouter_new.
  rewrite Hthis. simpl. rewrite list_lookup_insert_eq by done. simpl.
  by rewrite length_insert.
Qed.

Lemma LeafRouter_thens_run v fns : forall this e m path hs h,
  leaves h !! this = Some (mkLeafRouter false e m path hs) ->
  exists l h', LeafRouter_thens v this fns h = Val l h' /\
    leaves h' !! l = Some (mkLeafRouter false e m path (hs ++ map (then_handler v) fns)) /\
    routers h' = routers h /\ express h' = express h.
Proof.
  induction fns as [|fn fns IH]; intros this e m path hs h Hthis; simpl.
  - exists this, h. by rewrite app_nil_r.
  - unfold bind. rewrite (LeafRouter_then_run v this fn e m path hs h Hthis).
    edestruct (IH (length (leaves h)) e m path (hs ++ [then_handler v fn]))
      as (l & h' & Hrun & Hl & Hr & Hx);
      [|exists l, h'; split; [exact Hrun|]].
    + simpl. apply list_lookup_middle. by rewrite length_insert.
    + by rewrite Hl, <- app_assoc.
Qed.

Lemma LeafRouter_close_run v this t e m path hs ls h :
  leaves h !! this = Some (mkLeafRouter false e m path hs) ->
  express h !! e = Some ls ->
  LeafRouter_close v this t h
    = Val tt (mkHeap (routers h)
                (<[this := mkLeafRouter true e m path hs]> (leaves h))
                (<[e := ls ++ [LayerRoute m path (hs ++ [terminal_handler v t])]]>
                   (express h))).
Proof.
  intros Hthis He. pose proof (lookup_lt_Some _ _ _ Hthis) as Hlt.
  destruct t; simpl;
    unfold LeafRouter_return, LeafRouter_finish, bind, LeafRouter_consume,
      LeafRouter_fields, express_method, express_register;
    rewrite Hthis; simpl; rewrite list_lookup_insert_eq by done; simpl;
    by rewrite He.
Qed.

Lemma Router_toExpress_run this e h :
  routers h !! this = Some (mkRouter false e) ->
  Router_toExpress this h
    = Val e (mkHeap (<[this := mkRouter true e]> (routers h)) (leaves h) (express h)).
Proof.
  intros Hthis. pose proof (lookup_lt_Some _ _ _ Hthis) as Hlt.
  unfold Router_toExpress, bind, Router_consume, Router_get_router.
  rewrite Hthis. simpl. by rewrite list_lookup_insert_eq by done.
Qed.

Lemma endpoint_run v this pre m path steps t e ls h :
  routers h !! this = Some (mkRouter false e) ->
  express h !! e = Some ls ->
  exists h', endpoint v this pre m path steps t h = Val e h' /\
    express h' !! e
      = Some (ls ++ map (use_layer v) pre
                 ++ [LayerRoute m path (map (then_handler v) steps
                                          ++ [terminal_handler v t])]).
Proof.
  intros Hthis He. unfold endpoint, bind.
  destruct (Router_thens_run v pre this e ls h Hthis He) as (r & h1 & -> & Hr & Hx1).
  rewrite (Router_method_run m r path e h1 Hr).
  edestruct (LeafRouter_thens_run v steps (length (leaves h1)) e m path [])
    as (l & h2 & -> & Hl & Hr2 & Hx2); [by apply lookup_fresh_Some|].
  simpl in Hr2, Hx2.
  erewrite (LeafRouter_close_run v l t e m path); [|exact Hl|by rewrite Hx2].
  erewrite Router_toExpress_run by (simpl; by rewrite Hr2).
  eexists. split; [done|]. simpl.
  rewrite list_lookup_insert_eq by (rewrite Hx2; by eapply lookup_lt_Some).
  by rewrite <- app_assoc.
Qed.

Lemma Router_use_run main r p em es ls h :
  routers h !! main = Some (mkRouter false em) ->
  routers h !! r = Some (mkRouter false es) ->
  main <> r ->
  express h !! em = Some ls ->
  Router_use main (UsePath p) (UseRouter r) h
    = Val (length (routers h))
        (mkHeap (<[r := mkRouter true es]> (<[main := mkRouter true em]> (routers h))
                   ++ [mkRouter false em])
                (leaves h)
                (<[em := ls ++ [LayerUse [ArgPath p; ArgRouter es]]]> (express h))).
Proof.
  intros Hmain Hr Hne He.
  pose proof (lookup_lt_Some _ _ _ Hmain) as Hlt.
  pose proof (lookup_lt_Some _ _ _ Hr) as Hlt'.
  assert (<[main := mkRouter true em]> (routers h) !! r = Some (mkRouter false es)) as Hr'
    by (by rewrite list_lookup_insert_ne).
  assert (<[r := mkRouter true es]> (<[main := mkRouter true em]> (routers h)) !! r
          = Some (mkRouter true es)) as Hr''
    by (apply list_lookup_insert_eq; by rewrite length_insert).
  assert (<[r := mkRouter true es]> (<[main := mkRouter true em]> (routers h)) !! main
          = Some (mkRouter true em)) as Hmain'
    by (rewrite list_lookup_insert_ne by done; by apply list_lookup_insert_eq).
  unfold Router_use, compile_arg, Router_toExpress, bind, ret, Router_consume,
    Router_get_router.
  rewrite Hmain. cbn [consume checkConsumed Router_consumed Router_router routers].
  rewrite Hr'. cbn [consume checkConsumed Router_consumed Router_router routers].
  rewrite Hr''. cbn [Router_router routers]. rewrite Hmain'. cbn [Router_router].
  rewrite express_use_accepts by done.
  unfold express_register, Router_new, bind, ret. cbn [express routers leaves].
  rewrite He. cbn [express routers leaves]. by rewrite !length_insert.
Qed.

Lemma compile_plain_arg a x h : plain_arg a = Some x -> compile_arg a h = Val x h.
Proof. destruct a; simpl; intros ?; by simplify_eq. Qed.

Lemma Router_use_plain_run this first second a1 a2 e ls h :
  plain_arg first = Some a1 ->
  plain_arg second = Some a2 ->
  engine_accepts [a1; a2] = true ->
  routers h !! this = Some (mkRouter false e) ->
  express h !! e = Some ls ->
  Router_use this first second h
    = Val (length (routers h))
        (mkHeap (<[this := mkRouter true e]> (routers h) ++ [mkRouter false e])
                (leaves h)
                (<[e := ls ++ [LayerUse [a1; a2]]]> (express h))).
Proof.
  intros H1 H2 Hok Hthis He. pose proof (lookup_lt_Some _ _ _ Hthis) as Hlt.
  unfold Router_use, bind at 1, Router_consume.
  rewrite Hthis. cbn [consume checkConsumed Router_consumed Router_router].
  unfold bind at 1. rewrite (compile_plain_arg first a1) by done.
  unfold bind at 1. rewrite (compile_plain_arg second a2) by done.
  unfold bind, Router_get_router. cbn [routers].
  rewrite list_lookup_insert_eq by done. cbn [Router_router].
  rewrite express_use_accepts by done.
  unfold express_register, Router_new, bind, ret. cbn [express routers leaves].
  rewrite He. cbn [routers leaves express]. by rewrite length_insert.
Qed.

Lemma Router_use_fn_run this fn e ls h :
  routers h !! this = Some (mkRouter false e) ->
  express h !! e = Some ls ->
  Router_use_fn this fn h
    = Val (length (routers h))
        (mkHeap (<[this := mkRouter true e]> (routers h) ++ [mkRouter false e])
                (leaves h)
                (<[e := ls ++ [LayerUse [ArgHandler fn]]]> (express h))).
Proof.
  intros Hthis He. pose proof (lookup_lt_Some _ _ _ Hthis) as Hlt.
  unfold Router_use_fn, bind, Router_consume, Router_get_router.
  rewrite Hthis. cbn [consume checkConsumed Router_consumed Router_router].
  cbn [routers]. rewrite list_lookup_insert_eq by done. cbn [Router_router].
  rewrite express_use_accepts by done.
  unfold express_register, Router_new, bind, ret. cbn [express routers leaves].
  rewrite He. cbn [routers leaves express]. by rewrite length_insert.
Qed.

Lemma returning_run {A : Type} (f : A -> Value) (c : M A) h a h' :
  c h = Val a h' -> returning f c h = Val (f a) h'.
Proof. intros Hc. unfold returning, bind, ret. by rewrite Hc. Qed.

(** The one-argument forms [use(router)] and [use(usable)]: the source
    hands the engine [first] and an explicit [undefined], which the engine
    takes for a second callback. *)
Lemma Router_use_one_argument_stuck this first h r' h' :
  Router_use this first UseUndefined h <> Val r' h'.
Proof.
  unfold Router_use.
  intros (u & h0 & _ & (a1 & ha & _ & (a2 & hb & Hb & Htail)%bind_Val)%bind_Val)%bind_Val.
  simpl in Hb. unfold ret in Hb. simplify_eq.
  apply bind_Val in Htail as (e & h1 & _ & (u1 & h2 & Huse & _)%bind_Val).
  apply express_use_Val_accepted in Huse. unfold engine_accepts in Huse.
  by destruct a1.
Qed.

Lemma Router_use_one_handler_run this f e ls h :
  routers h !! this = Some (mkRouter false e) ->
  express h !! e = Some ls ->
  Router_use this (UseHandler f) UseUndefined h
    = Exc TypeError
        (mkHeap (<[this := mkRouter true e]> (routers h)) (leaves h)
                (<[e := ls ++ [LayerUse [ArgHandler f]]]> (express h))).
Proof.
  intros Hthis He. pose proof (lookup_lt_Some _ _ _ Hthis) as Hlt.
  unfold Router_use, compile_arg, bind, ret, Router_consume, Router_get_router.
  rewrite Hthis. cbn [consume checkConsumed Router_consumed Router_router].
  cbn [routers]. rewrite list_lookup_insert_eq by done. cbn [Router_router].
  unfold express_use, use_callbacks, bind, express_register, ret, throw.
  cbn [is_function leading_functions express app]. by rewrite He.
Qed.

(** C8. On a [Router] that is not consumed, [then], [use(fn)] of
    [part_001], [toExpress] and every two-argument [use] of a path or a
    function with a function return, and so does [use(subpath, router)]
    with another [Router] that is not consumed; [get], [post], [put] and
    [delete] return as well.  What [use] and [then] return is a [Router]
    that did not exist before, is not consumed and wraps the receiver's own
    [ExpressRouter]; the method factories return a new [LeafRouter] over
    that same [ExpressRouter]; what the call registered was appended to
    that one [ExpressRouter].  The one-argument [use] of [src/src/index.ts]
    and [part_000] never returns: with a handler it consumes the receiver,
    the engine registers the handler and then throws a [TypeError] on the
    [undefined] it was handed as second callback, and no [Router] is
    made. *)
Theorem derived_builders_share_the_router
    (v : Revision) (this e : nat) (ls : list Layer) (h : Heap) :
  routers h !! this = Some (mkRouter false e) ->
  express h !! e = Some ls ->
  (forall c, plain_call (OnRouter this c) = true ->
     exists x h', perform v (OnRouter this c) h = Val x h' /\
       derived (OnRouter this c) h h' e x /\ writes_only_to h h' e) /\
  (forall p d ed, this <> d -> routers h !! d = Some (mkRouter false ed) ->
     exists r' h', Router_use this (UsePath p) (UseRouter d) h = Val r' h' /\
       routers h !! r' = None /\ routers h' !! r' = Some (mkRouter false e) /\
       express h' = <[e := ls ++ [LayerUse [ArgPath p; ArgRouter ed]]]> (express h)) /\
  (forall first r' h', Router_use this first UseUndefined h <> Val r' h') /\
  (forall f, Router_use this (UseHandler f) UseUndefined h
     = Exc TypeError
         (mkHeap (<[this := mkRouter true e]> (routers h)) (leaves h)
                 (<[e := ls ++ [LayerUse [ArgHandler f]]]> (express h)))).
Proof.
  intros Hthis He. split; [|split; [|split]].
  - intros c Hplain.
    assert (exists x h', perform v (OnRouter this c) h = Val x h') as (x & h' & Hrun).
    { destruct c as [first second|fn|fn|m path|]; cbn [perform Router_call].
      - simpl in Hplain.
        destruct (plain_arg first) as [a1|] eqn:E1; [|done].
        destruct (plain_arg second) as [a2|] eqn:E2; [|done].
        eexists _, _. apply returning_run.
        by apply (Router_use_plain_run this first second a1 a2 e ls).
      - eexists _, _. apply returning_run. by apply (Router_use_fn_run this fn e ls).
      - eexists _, _. apply returning_run. by apply (Router_then_run v this fn e ls).
      - eexists _, _. apply returning_run. by apply (Router_method_run m this path e).
      - eexists _, _. apply returning_run. by apply (Router_toExpress_run this e). }
    exists x, h'. split; [done|].
    apply (returned_builder_is_derived v (OnRouter this c) (ARouter this)); [done| |done].
    simpl. by rewrite Hthis.
  - intros p d ed Hne Hd.
    rewrite (Router_use_run this d p e ed ls h Hthis Hd Hne He).
    eexists _, _. split; [done|]. cbn [routers express].
    split; [apply lookup_fresh_None|]. split; [|done].
    apply list_lookup_middle. by rewrite !length_insert.
  - intros first r' h'. apply Router_use_one_argument_stuck.
  - intros f. by apply Router_use_one_handler_run.
Qed.

(** On a fresh router: [r.then(step_ok)] returns router 1, new, unconsumed
    and over Express router 0, where the step was registered;
    [r.use(handler)] throws a [TypeError], leaving [r] consumed and the
    handler registered. *)
Lemma derived_builders_share_the_router_witness :
  (exists x h', perform index_ts (OnRouter 0 (Then step_ok)) fresh_heap = Val x h' /\
     derived (OnRouter 0 (Then step_ok)) fresh_heap h' 0 x /\
     writes_only_to fresh_heap h' 0) /\
  Router_use 0 (UseHandler (then_handler index_ts step_ok)) UseUndefined fresh_heap
    = Exc TypeError
        (mkHeap (<[0 := mkRouter true 0]> (routers fresh_heap)) (leaves fresh_heap)
                (<[0 := [] ++ [LayerUse [ArgHandler (then_handler index_ts step_ok)]]]>
                   (express fresh_heap))).
Proof.
  split.
  - apply (proj1 (derived_builders_share_the_router index_ts 0 0 [] fresh_heap
                    eq_refl eq_refl) (Then step_ok)).
    reflexivity.
  - apply (proj2 (proj2 (proj2 (derived_builders_share_the_router index_ts 0 0 []
                                  fresh_heap eq_refl eq_refl)))).
Defined.

(** C9. [LeafRouter.then] on a [LeafRouter] that is not consumed returns
    and registers nothing: no [ExpressRouter] and no [Router] changes.  The
    receiver keeps its [handlers] array as it was and is only marked
    consumed; the [LeafRouter] returned is new and holds the concatenated
    array.  The route reaches the [ExpressRouter] when [return] or [finish]
    is called on the new [LeafRouter]: either call returns and appends one
    layer, with the handlers collected so far and the terminal one. *)
Theorem LeafRouter_then_registers_nothing
    (v : Revision) (this : nat) (fn : Step) (o : LeafRouterObj)
    (ls : list Layer) (h : Heap) :
  leaves h !! this = Some o ->
  LeafRouter_consumed o = false ->
  express h !! LeafRouter_router o = Some ls ->
  exists l' h',
    LeafRouter_then v this fn h = Val l' h' /\
    express h' = express h /\
    routers h' = routers h /\
    LeafRouter_handlers <$> leaves h' !! this = Some (LeafRouter_handlers o) /\
    leaves h !! l' = None /\
    leaves h' !! l'
      = Some (mkLeafRouter false (LeafRouter_router o) (LeafRouter_method o)
                (LeafRouter_path o) (LeafRouter_handlers o ++ [then_handler v fn])) /\
    (forall f, exists h'',
       LeafRouter_return v l' f h' = Val tt h'' /\
       express h''
         = <[LeafRouter_router o :=
               ls ++ [LayerRoute (LeafRouter_method o) (LeafRouter_path o)
                        ((LeafRouter_handlers o ++ [then_handler v fn])
                           ++ [return_handler v f])]]> (express h)) /\
    (forall f, exists h'',
       LeafRouter_finish v l' f h' = Val tt h'' /\
       express h''
         = <[LeafRouter_router o :=
               ls ++ [LayerRoute (LeafRouter_method o) (LeafRouter_path o)
                        ((LeafRouter_handlers o ++ [then_handler v fn])
                           ++ [finish_handler v f])]]> (express h)).
Proof.
  destruct o as [c e m path hs]. simpl. intros Hthis -> He.
  pose proof (lookup_lt_Some _ _ _ Hthis) as Hlt.
  rewrite (LeafRouter_then_run v this fn e m path hs h Hthis).
  eexists _, _. split; [done|]. cbn [express routers leaves].
  split; [done|]. split; [done|]. split.
  { rewrite lookup_app_l by (by rewrite length_insert).
    by rewrite list_lookup_insert_eq by done. }
  split; [apply lookup_fresh_None|].
  assert ((<[this := mkLeafRouter true e m path hs]> (leaves h)
             ++ [mkLeafRouter false e m path (hs ++ [then_handler v fn])])
            !! length (leaves h)
          = Some (mkLeafRouter false e m path (hs ++ [then_handler v fn]))) as Hnew
    by (apply list_lookup_middle; by rewrite length_insert).
  split; [done|]. split; intros f.
  - eexists. split.
    + exact (LeafRouter_close_run v (length (leaves h)) (ByReturn f) e m path
               (hs ++ [then_handler v fn]) ls
               (mkHeap (routers h)
                       (<[this := mkLeafRouter true e m path hs]> (leaves h)
                          ++ [mkLeafRouter false e m path (hs ++ [then_handler v fn])])
                       (express h))
               Hnew He).
    + reflexivity.
  - eexists. split.
    + exact (LeafRouter_close_run v (length (leaves h)) (ByFinish f) e m path
               (hs ++ [then_handler v fn]) ls
               (mkHeap (routers h)
                       (<[this := mkLeafRouter true e m path hs]> (leaves h)
                          ++ [mkLeafRouter false e m path (hs ++ [then_handler v fn])])
                       (express h))
               Hnew He).
    + reflexivity.
Qed.

(** [r.get("/hello").then(step_ok)] on a fresh router. *)
Lemma LeafRouter_then_registers_nothing_witness :
  exists l' h',
    LeafRouter_then index_ts 0 step_ok leaf_heap = Val l' h' /\
    express h' = express leaf_heap /\
    routers h' = routers leaf_heap /\
    LeafRouter_handlers <$> leaves h' !! 0 = Some [] /\
    leaves leaf_heap !! l' = None /\
    leaves h' !! l'
      = Some (mkLeafRouter false 0 get "/hello" ([] ++ [then_handler index_ts step_ok])) /\
    (forall f, exists h'',
       LeafRouter_return index_ts l' f h' = Val tt h'' /\
       express h''
         = <[0 := [] ++ [LayerRoute get "/hello"
                           (([] ++ [then_handler index_ts step_ok])
                              ++ [return_handler index_ts f])]]> (express leaf_heap)) /\
    (forall f, exists h'',
       LeafRouter_finish index_ts l' f h' = Val tt h'' /\
       express h''
         = <[0 := [] ++ [LayerRoute get "/hello"
                           (([] ++ [then_handler index_ts step_ok])
                              ++ [finish_handler index_ts f])]]> (express leaf_heap)).
Proof.
  apply (LeafRouter_then_registers_nothing index_ts 0 step_ok
           (mkLeafRouter false 0 get "/hello" []) [] leaf_heap).
  - reflexivity.
  - reflexivity.
  - reflexivity.
Defined.

(** ** Running a chain *)

Lemma then_handler_passes v fn req res x :
  await (fn req).2 = inr x ->
  then_handler v fn req res = mkRun (fn req).1 res [InvStep fn] SNext.
Proof.
  intros Hok. destruct v; simpl;
    unfold then_handler_plain, then_handler_caught;
    destruct (fn req) as [req' c]; simpl in *; by rewrite Hok.
Qed.

Lemma then_handler_fails v fn req res e :
  await (fn req).2 = inl e ->
  run_calls (then_handler v fn req res) = [InvStep fn] /\
  run_signal (then_handler v fn req res) <> SNext.
Proof.
  intros Hko. destruct v; simpl;
    unfold then_handler_plain, then_handler_caught;
    destruct (fn req) as [req' c]; simpl in *; by rewrite Hko.
Qed.

Lemma terminal_handler_ends v t req res :
  run_calls (terminal_handler v t req res) = [terminal_invocation t] /\
  run_signal (terminal_handler v t req res) <> SNext.
Proof.
  destruct t as [fn|fn], v; simpl;
    unfold return_handler_plain, return_handler_caught,
      finish_handler_plain, finish_handler_caught.
  all: try (destruct (fn req) as [req' c]; by destruct c).
  all: destruct (fn req res) as [[req' res'] c]; by destruct c.
Qed.

Lemma continue_stops r k :
  run_signal r <> SNext -> continue r k = Some r.
Proof. unfold continue. by destruct (run_signal r). Qed.

Section Chains.

Variable route_matches : Method -> string -> Request -> bool.
Variable mount_matches : string -> Request -> bool.
Variable mount_strip : string -> Request -> Request.
Variable mount_restore : string -> Request -> Request.
Variable mounted : nat -> Request -> Response -> option HandlerRun.

Lemma run_handlers_chain v t steps : forall req res,
  exists run,
    run_handlers
      (map (then_handler v) steps ++ [terminal_handler v t]) req res = Some run /\
    run_calls run = pipeline_calls steps t req /\
    run_signal run <> SNext.
Proof.
  induction steps as [|fn steps IH]; intros req res; simpl.
  - destruct (terminal_handler_ends v t req res) as [Hcalls Hsig].
    exists (terminal_handler v t req res). by rewrite continue_stops.
  - destruct (await (fn req).2) as [e|x] eqn:Hfn.
    + destruct (then_handler_fails v fn req res e Hfn) as [Hcalls Hsig].
      exists (then_handler v fn req res). rewrite continue_stops by done.
      split; [done|]. split; [|done].
      rewrite Hcalls. destruct (fn req) as [req' c]. simpl in Hfn. by rewrite Hfn.
    + rewrite (then_handler_passes v fn req res x Hfn). unfold continue. simpl.
      destruct (IH (fn req).1 res) as (run & -> & Hcalls & Hsig).
      eexists. split; [done|]. simpl. split; [|done].
      rewrite Hcalls. destruct (fn req) as [req' c]. simpl in Hfn. by rewrite Hfn.
Qed.

Lemma run_layers_chain v m path t steps pre : forall req res,
  (forall req1, pass pre req = Some req1 -> route_matches m path req1 = true) ->
  exists run,
    run_layers route_matches mount_matches mount_strip mount_restore mounted
      (map (use_layer v) pre
         ++ [LayerRoute m path (map (then_handler v) steps ++ [terminal_handler v t])])
      req res = Some run /\
    run_calls run = pipeline_calls (pre ++ steps) t req.
Proof.
  induction pre as [|fn pre IH]; intros req res Hmatch; simpl.
  - rewrite Hmatch by done.
    destruct (run_handlers_chain v t steps req res) as (run & -> & Hcalls & Hsig).
    exists run. by rewrite continue_stops.
  - destruct (await (fn req).2) as [e|x] eqn:Hfn.
    + destruct (then_handler_fails v fn req res e Hfn) as [Hcalls Hsig].
      exists (then_handler v fn req res).
      rewrite !continue_stops by done. split; [done|].
      rewrite Hcalls. destruct (fn req) as [req' c]. simpl in Hfn. by rewrite Hfn.
    + rewrite (then_handler_passes v fn req res x Hfn). unfold continue. simpl.
      destruct (IH (fn req).1 res) as (run & -> & Hcalls).
      { intros req1 Hpass. apply Hmatch. simpl.
        destruct (fn req) as [req' c]. simpl in *. by rewrite Hfn. }
      eexists. split; [done|]. simpl.
      rewrite Hcalls. destruct (fn req) as [req' c]. simpl in Hfn. by rewrite Hfn.
Qed.

End Chains.

Lemma pipeline_calls_all_pass fns t : forall req reqn,
  pass fns req = Some reqn ->
  pipeline_calls fns t req = map InvStep fns ++ [terminal_invocation t].
Proof.
  induction fns as [|fn fns IH]; intros req reqn; simpl; [done|].
  destruct (fn req) as [req' c]. destruct (await c); [done|].
  intros Hpass. f_equal. by eapply IH.
Qed.

Lemma pipeline_calls_stop_at_failure done s rest t : forall req req1,
  pass done req = Some req1 ->
  fails (s req1).2 ->
  pipeline_calls (done ++ s :: rest) t req = map InvStep (done ++ [s]).
Proof.
  induction done as [|fn done IH]; intros req req1; simpl.
  - intros [= <-] [e He]. destruct (s req) as [req' c]. simpl in He. by rewrite He.
  - destruct (fn req) as [req' c]. destruct (await c); [done|].
    intros Hpass Hfail. f_equal. by eapply IH.
Qed.

(** C2. A router built as
    [this.then(p1)...then(pk)], then [get]/[post]/[put]/[delete] on it,
    [.then(s1)...then(sn)] and [return] or [finish], handles a request that
    matches the route by invoking [p1..pk, s1..sn] in that order and then
    the terminal function; and when one of the steps fails, the steps
    before it and that step are all that is invoked. *)
Theorem steps_run_in_registration_order
    (route_matches : Method -> string -> Request -> bool)
    (mount_matches : string -> Request -> bool)
    (mount_strip mount_restore : string -> Request -> Request)
    (v : Revision) (this e : nat) (h : Heap)
    (pre : list Step) (m : Method) (path : string) (steps : list Step)
    (t : Terminal) (req : Request) (res : Response) (fuel : nat) :
  routers h !! this = Some (mkRouter false e) ->
  express h !! e = Some [] ->
  (forall req1, pass pre req = Some req1 -> route_matches m path req1 = true) ->
  exists h' run,
    endpoint v this pre m path steps t h = Val e h' /\
    dispatch route_matches mount_matches mount_strip mount_restore
        (S fuel) h' e req res = Some run /\
    (forall reqn, pass (pre ++ steps) req = Some reqn ->
       run_calls run = map InvStep (pre ++ steps) ++ [terminal_invocation t]) /\
    (forall done s rest req1,
       pre ++ steps = done ++ s :: rest ->
       pass done req = Some req1 ->
       fails (s req1).2 ->
       run_calls run = map InvStep (done ++ [s])).
Proof.
  intros Hthis He Hmatch.
  destruct (endpoint_run v this pre m path steps t e [] h Hthis He) as (h' & Hbuild & Hx).
  destruct (run_layers_chain route_matches mount_matches mount_strip mount_restore
              (dispatch route_matches mount_matches mount_strip mount_restore
                  fuel h') v m path t steps pre
              req res Hmatch) as (run & Hrun & Hcalls).
  exists h', run. split; [done|]. split; [simpl; by rewrite Hx|].
  split.
  - intros reqn Hpass. rewrite Hcalls. by eapply pipeline_calls_all_pass.
  - intros done s rest req1 Hsplit Hpass Hfail. rewrite Hcalls, Hsplit.
    by eapply pipeline_calls_stop_at_failure.
Qed.

(** [new Router().then(step_ok).get("/hello").then(step_throws).then(step_ok)
    .return(result_body)] and a request for [/hello]. *)
Lemma steps_run_in_registration_order_witness :
  exists h' run,
    endpoint index_ts 0 [step_ok] get "/hello" [step_throws; step_ok]
             (ByReturn result_body) fresh_heap = Val 0 h' /\
    dispatch sample_route_matches sample_mount_matches sample_mount_strip sample_mount_restore
        1 h' 0
             sample_request blank_response = Some run /\
    (forall reqn,
       pass ([step_ok] ++ [step_throws; step_ok]) sample_request = Some reqn ->
       run_calls run
         = map InvStep ([step_ok] ++ [step_throws; step_ok])
             ++ [terminal_invocation (ByReturn result_body)]) /\
    (forall done s rest req1,
       [step_ok] ++ [step_throws; step_ok] = done ++ s :: rest ->
       pass done sample_request = Some req1 ->
       fails (s req1).2 ->
       run_calls run = map InvStep (done ++ [s])).
Proof.
  apply (steps_run_in_registration_order sample_route_matches sample_mount_matches
      sample_mount_strip sample_mount_restore
           index_ts 0 0 fresh_heap [step_ok] get "/hello" [step_throws; step_ok]
           (ByReturn result_body) sample_request blank_response 0).
  - reflexivity.
  - reflexivity.
  - intros req1 Hpass. simpl in Hpass. injection Hpass as <-. reflexivity.
Defined.

(** The same chain, run: two invocations, and the failure of [step_throws]
    leaves the handler as a rejected promise in [src/src/index.ts] and
    through [next(e)] in [part_000]. *)
Example chain_sample_index_ts :
  match endpoint index_ts 0 [step_ok] get "/hello" [step_throws; step_ok]
          (ByReturn result_body) fresh_heap with
  | Val e h' =>
      dispatch sample_route_matches sample_mount_matches sample_mount_strip sample_mount_restore
          1 h' e
               sample_request blank_response
  | _ => None
  end
  = Some (mkRun sample_request blank_response
            [InvStep step_ok; InvStep step_throws] (SRejected (Error "denied"))).
Proof. reflexivity. Qed.

Example chain_sample_part_000 :
  match endpoint part_000 0 [step_ok] get "/hello" [step_throws; step_ok]
          (ByReturn result_body) fresh_heap with
  | Val e h' =>
      dispatch sample_route_matches sample_mount_matches sample_mount_strip sample_mount_restore
          1 h' e
               sample_request blank_response
  | _ => None
  end
  = Some (mkRun sample_request blank_response
            [InvStep step_ok; InvStep step_throws] (SNextErr (Error "denied"))).
Proof. reflexivity. Qed.

Example chain_sample_all_pass :
  match endpoint index_ts 0 [step_ok] get "/hello" [step_async_ok]
          (ByReturn result_body) fresh_heap with
  | Val e h' =>
      dispatch sample_route_matches sample_mount_matches sample_mount_strip sample_mount_restore
          1 h' e
               sample_request blank_response
  | _ => None
  end
  = Some (mkRun sample_request (mkResponse [JsStr "hello"])
            [InvStep step_ok; InvStep step_async_ok; InvResult result_body]
            SReturned).
Proof. reflexivity. Qed.

(** ** Failures of steps and of the terminal function *)

(** In [part_000] the handler of [then] catches the failure and hands it
    to [next]. *)
Lemma then_handler_caught_forwards fn req res e :
  await (fn req).2 = inl e ->
  run_signal (then_handler part_000 fn req res) = SNextErr e.
Proof.
  intros Hko. simpl. unfold then_handler_caught.
  destruct (fn req) as [req' c]. simpl in *. by rewrite Hko.
Qed.

(** C3. In [src/src/index.ts] (and [part_001]) the handler that [Router.then]
    and [LeafRouter.then] register has no [try]/[catch]: it never calls
    [next(e)].  A step that throws, or whose promise is rejected, leaves the
    handler as a rejected promise, in the handler alone and in a whole
    chain. *)
Theorem then_handler_index_ts_does_not_forward :
  (forall fn req res,
     forwarded (run_signal (then_handler index_ts fn req res)) = []) /\
  run_signal (then_handler index_ts step_throws sample_request blank_response)
    = SRejected (Error "denied") /\
  run_signal (then_handler index_ts step_rejects sample_request blank_response)
    = SRejected (Error "denied") /\
  (exists h',
     endpoint index_ts 0 [step_throws] get "/hello" [] (ByReturn result_body)
              fresh_heap = Val 0 h' /\
     run_signal <$> dispatch sample_route_matches sample_mount_matches
         sample_mount_strip sample_mount_restore
         1 h' 0
                      sample_request blank_response
       = Some (SRejected (Error "denied"))) /\
  (exists h',
     endpoint index_ts 0 [] get "/hello" [step_rejects] (ByReturn result_body)
              fresh_heap = Val 0 h' /\
     run_signal <$> dispatch sample_route_matches sample_mount_matches
         sample_mount_strip sample_mount_restore
         1 h' 0
                      sample_request blank_response
       = Some (SRejected (Error "denied"))).
Proof.
  split.
  { intros fn req res. simpl. unfold then_handler_plain.
    destruct (fn req) as [req' c]. by destruct c. }
  split; [reflexivity|]. split; [reflexivity|].
  split; eexists; split; reflexivity.
Qed.

(** [return] sends what the function returns, in every revision. *)
Lemma return_handler_sends v fn req res reply :
  await (fn req).2 = inr reply ->
  run_res (return_handler v fn req res) = res_send res reply /\
  run_signal (return_handler v fn req res) = SReturned.
Proof.
  intros Hok. destruct v; simpl;
    unfold return_handler_plain, return_handler_caught;
    destruct (fn req) as [req' c]; simpl in *; by rewrite Hok.
Qed.

(** In [part_000] a failing function sends nothing and one error goes to
    [next]. *)
Lemma return_handler_caught_forwards fn req res e :
  await (fn req).2 = inl e ->
  run_res (return_handler part_000 fn req res) = res /\
  forwarded (run_signal (return_handler part_000 fn req res)) = [e].
Proof.
  intros Hko. simpl. unfold return_handler_caught.
  destruct (fn req) as [req' c]. simpl in *. by rewrite Hko.
Qed.

(** C4. In [src/src/index.ts] (and [part_001]) the handler that [return]
    registers takes no [next] and has no [try]/[catch].  When the function
    fails nothing is sent, as claimed, but no error is forwarded either:
    the handler ends as a rejected promise. *)
Theorem return_handler_index_ts_forwards_nothing :
  (forall fn req res,
     forwarded (run_signal (return_handler index_ts fn req res)) = []) /\
  return_handler index_ts result_throws sample_request blank_response
    = mkRun sample_request blank_response [InvResult result_throws]
            (SRejected (Error "no such post")) /\
  return_handler index_ts result_rejects sample_request blank_response
    = mkRun sample_request blank_response [InvResult result_rejects]
            (SRejected (Error "no such post")).
Proof.
  split; [|split; reflexivity].
  intros fn req res. simpl. unfold return_handler_plain.
  destruct (fn req) as [req' c]. by destruct c.
Qed.

(** ** Narrowing steps *)

(** In [part_000] each factory validates its own facet. *)
Lemma marshal_facets_part_000 {MarshalUnion : Type}
    (marshal : JsValue -> MarshalUnion -> option string) d req :
  marshalParams marshal part_000 d req = marshal_then_return marshal (req_params req) d req /\
  marshalQuery marshal part_000 d req = marshal_then_return marshal (req_query req) d req /\
  marshalBody marshal part_000 d req = marshal_then_return marshal (req_body req) d req.
Proof. done. Qed.

(** C5. In [src/src/index.ts] (and [part_001]) [marshalParams] and
    [marshalQuery] validate [req.body], as [marshalBody] does: a request
    whose path parameters are a number and whose body is a string passes
    [marshalParams(M.str)], and one whose body is a number fails
    [marshalQuery(M.str)] on the body, whatever its query is. *)
Theorem marshalParams_index_ts_reads_body :
  (forall (MarshalUnion : Type) (marshal : JsValue -> MarshalUnion -> option string)
          d req,
     marshalParams marshal index_ts d req = marshalBody marshal index_ts d req /\
     marshalQuery marshal index_ts d req = marshalBody marshal index_ts d req) /\
  violates sample_marshal (req_params sample_request) M_str /\
  marshalParams sample_marshal index_ts M_str sample_request
    = (sample_request, Returns sample_request) /\
  marshalQuery sample_marshal index_ts M_str number_request
    = (number_request, Throws (MarshalError "Expected string" (JsNum 3))).
Proof.
  split; [done|]. split; [by eexists|]. split; reflexivity.
Qed.

(** C6. The step of [marshalBody(d)] returns the very request it was given
    when the body satisfies [d]; when the body violates [d] it throws a
    validation error; in both cases the request is left as it was. *)
Theorem marshalBody_returns_request_or_raises
    (MarshalUnion : Type) (marshal : JsValue -> MarshalUnion -> option string)
    (v : Revision) (d : MarshalUnion) (r : Request) :
  (satisfies marshal (req_body r) d ->
     marshalBody marshal v d r = (r, Returns r)) /\
  (violates marshal (req_body r) d ->
     exists e, marshalBody marshal v d r = (r, Throws e) /\ is_ValidationError e).
Proof.
  unfold satisfies, violates, marshalBody, marshal_then_return. split.
  - by intros ->.
  - intros [message ->]. eexists. split; [done|]. by eexists _, _.
Qed.

Lemma marshalBody_returns_request_or_raises_witness :
  marshalBody sample_marshal index_ts M_str sample_request
    = (sample_request, Returns sample_request) /\
  exists e, marshalBody sample_marshal index_ts M_str number_request
              = (number_request, Throws e) /\ is_ValidationError e.
Proof.
  split.
  - apply (proj1 (marshalBody_returns_request_or_raises SampleUnion sample_marshal
                    index_ts M_str sample_request)).
    reflexivity.
  - apply (proj2 (marshalBody_returns_request_or_raises SampleUnion sample_marshal
                    index_ts M_str number_request)).
    exists "Expected string". reflexivity.
Defined.

(** * Further properties *)

(** ** The shared list only grows *)

(** X1. Whatever sequence of library calls client code makes, returning or
    throwing, an [ExpressRouter] is only ever appended to: the layers it
    had are still its first layers, in the same order. *)
Theorem express_is_append_only (v : Revision) (h h' : Heap) (e : nat) (ls : list Layer) :
  later v h h' ->
  express h !! e = Some ls ->
  exists ls', express h' !! e = Some (ls ++ ls').
Proof.
  intros Hlater Hls. apply later_heap_le in Hlater. by apply (le_express _ _ Hlater).
Qed.

(** After [const r1 = new Router().then(step_ok)]: [r1.then(step_async_ok)]
    returns and [r1.then(step_ok)] then throws; the layer Express router 0
    had is still its first. *)
Lemma express_is_append_only_witness :
  exists ls',
    express (mkHeap [mkRouter true 0; mkRouter true 0; mkRouter false 0] []
                    [[use_layer index_ts step_ok; use_layer index_ts step_async_ok]]) !! 0
      = Some ([use_layer index_ts step_ok] ++ ls').
Proof.
  apply (express_is_append_only index_ts then_heap _ 0 [use_layer index_ts step_ok]).
  - apply (later_call index_ts then_heap (OnRouter 1 (Then step_async_ok))
             (mkHeap [mkRouter true 0; mkRouter true 0; mkRouter false 0] []
                     [[use_layer index_ts step_ok; use_layer index_ts step_async_ok]])).
    + reflexivity.
    + apply (later_call index_ts _ (OnRouter 1 (Then step_ok))
               (mkHeap [mkRouter true 0; mkRouter true 0; mkRouter false 0] []
                       [[use_layer index_ts step_ok; use_layer index_ts step_async_ok]])).
      * reflexivity.
      * apply later_now.
  - reflexivity.
Defined.

(** X2. A builder never changes the [ExpressRouter] it wraps, whatever
    calls are made on it or on other builders. *)
Theorem builder_keeps_its_router (v : Revision) (h h' : Heap) (b : Builder) (e : nat) :
  later v h h' ->
  wrapped h b = Some e ->
  wrapped h' b = Some e.
Proof.
  intros Hlater. apply later_heap_le in Hlater as [R L _].
  destruct b as [r|l]; simpl.
  - destruct (routers h !! r) as [o|] eqn:E; [|done]. simpl. intros [= <-].
    destruct (R _ _ E) as (o' & -> & [Hr _]). simpl. by rewrite Hr.
  - destruct (leaves h !! l) as [o|] eqn:E; [|done]. simpl. intros [= <-].
    destruct (L _ _ E) as (o' & -> & (Hr & _)). simpl. by rewrite Hr.
Qed.

Lemma builder_keeps_its_router_witness :
  wrapped two_routers_used (ARouter 1) = Some 1.
Proof.
  apply (builder_keeps_its_router index_ts two_routers two_routers_used (ARouter 1) 1).
  - apply (later_call index_ts two_routers
             (OnRouter 0 (Use (UsePath "/blog") (UseRouter 1))) two_routers_used).
    + reflexivity.
    + apply later_now.
  - reflexivity.
Defined.

(** ** When a call throws *)

Lemma unfailing_Router_get_router this : unfailing (Router_get_router this).
Proof. intros h. unfold Router_get_router. by destruct (routers h !! this). Qed.

Lemma unfailing_LeafRouter_fields this : unfailing (LeafRouter_fields this).
Proof. intros h. unfold LeafRouter_fields. by destruct (leaves h !! this). Qed.

Lemma Router_consume_accepts this h :
  consumed_flag h (ARouter this) = Some false ->
  exists h0, Router_consume this h = Val tt h0.
Proof.
  simpl. unfold Router_consume. destruct (routers h !! this) as [[c e]|]; [|done].
  simpl. intros [= ->]. simpl. by eexists.
Qed.

Lemma Router_checkConsumed_accepts this h :
  consumed_flag h (ARouter this) = Some false ->
  Router_checkConsumed this h = Val tt h.
Proof.
  simpl. unfold Router_checkConsumed. destruct (routers h !! this) as [[c e]|]; [|done].
  simpl. by intros [= ->].
Qed.

Lemma LeafRouter_consume_accepts this h :
  consumed_flag h (ALeafRouter this) = Some false ->
  exists h0, LeafRouter_consume this h = Val tt h0.
Proof.
  simpl. unfold LeafRouter_consume. destruct (leaves h !! this) as [o|]; [|done].
  simpl. intros [= ->]. simpl. by eexists.
Qed.

Lemma unfailing_not_Exc {A : Type} (c : M A) h :
  unfailing c -> forall e h', c h <> Exc e h'.
Proof. intros Hc e h' Heq. specialize (Hc h). by rewrite Heq in Hc. Qed.

Lemma bind_accepts {A B : Type} (c : M A) (k : A -> M B) h a h0 :
  c h = Val a h0 ->
  (forall e h', k a h0 <> Exc e h') ->
  forall e h', bind c k h <> Exc e h'.
Proof. intros Hc Hk e h'. unfold bind. rewrite Hc. apply Hk. Qed.

Lemma returning_accepts {A : Type} (f : A -> Value) (c : M A) h :
  (forall e h', c h <> Exc e h') ->
  forall e h', returning f c h <> Exc e h'.
Proof.
  intros Hc e h'. unfold returning, bind, ret.
  destruct (c h) as [a h0|e0 h0|] eqn:E; [done| |done]. by destruct (Hc e0 h0).
Qed.

Lemma unfailing_express_use e args :
  engine_accepts args = true -> unfailing (express_use e args).
Proof.
  intros Ha h. rewrite express_use_accepts by done. apply unfailing_express_register.
Qed.

Ltac unfailing_tail :=
  apply unfailing_not_Exc; unfold express_method;
  repeat first
    [ apply unfailing_Router_get_router
    | apply unfailing_LeafRouter_fields
    | apply unfailing_express_register
    | apply unfailing_express_use; first [assumption | reflexivity]
    | apply unfailing_Router_new
    | apply unfailing_LeafRouter_new
    | apply unfailing_ret
    | apply unfailing_bind; [|intros] ].

Lemma unconsumed_accepts v a b h :
  receiver a = Some b ->
  plain_call a = true ->
  consumed_flag h b = Some false ->
  forall e h', perform v a h <> Exc e h'.
Proof.
  destruct a as [router|this c|this c]; simpl; [done|..]; intros [= <-] Hplain Hflag.
  - destruct c as [first second|fn|fn|m path|]; simpl; apply returning_accepts.
    + destruct (plain_arg first) as [x|] eqn:Ex; [|done].
      destruct (plain_arg second) as [y|] eqn:Ey; [|done].
      destruct (Router_consume_accepts _ _ Hflag) as [h0 Hc].
      eapply bind_accepts; [exact Hc|].
      eapply bind_accepts; [by apply compile_plain_arg|].
      eapply bind_accepts; [by apply compile_plain_arg|].
      unfailing_tail.
    + destruct (Router_consume_accepts _ _ Hflag) as [h0 Hc].
      eapply bind_accepts; [exact Hc|]. unfailing_tail.
    + destruct (Router_consume_accepts _ _ Hflag) as [h0 Hc].
      eapply bind_accepts; [exact Hc|]. unfailing_tail.
    + eapply bind_accepts; [by apply Router_checkConsumed_accepts|]. unfailing_tail.
    + destruct (Router_consume_accepts _ _ Hflag) as [h0 Hc].
      eapply bind_accepts; [exact Hc|]. unfailing_tail.
  - destruct (LeafRouter_consume_accepts _ _ Hflag) as [h0 Hc].
    destruct c as [fn|fn|fn]; simpl; apply returning_accepts;
      (eapply bind_accepts; [exact Hc|]); unfailing_tail.
Qed.

(** X3. For a call that consumes no [Router] but its receiver and hands the
    engine arguments it accepts (any call but the two-argument [use], and
    [use(path, fn)] or [use(fn, fn)] with no [Router] instance among the
    arguments): it throws exactly when its receiver is already consumed. *)
Theorem throws_iff_receiver_consumed
    (v : Revision) (a : Action) (b : Builder) (h : Heap) :
  receiver a = Some b ->
  plain_call a = true ->
  is_Some (consumed_flag h b) ->
  (exists e h', perform v a h = Exc e h') <-> consumed_flag h b = Some true.
Proof.
  intros Hb Hplain [[] Hflag]; split.
  - done.
  - intros _. exists UseAfterConsume, h. by apply consumed_refuses with b.
  - intros (e & h' & Hrun). by destruct (unconsumed_accepts v a b h Hb Hplain Hflag e h').
  - by rewrite Hflag.
Qed.

(** [r.use("/blog", f)] on a fresh router does not throw, on a consumed one
    it does. *)
Lemma throws_iff_receiver_consumed_witness :
  ((exists e h', perform index_ts
      (OnRouter 0 (Use (UsePath "/blog") (UseHandler (then_handler index_ts step_ok))))
      fresh_heap = Exc e h')
     <-> consumed_flag fresh_heap (ARouter 0) = Some true) /\
  ((exists e h', perform index_ts
      (OnRouter 0 (Use (UsePath "/blog") (UseHandler (then_handler index_ts step_ok))))
      compiled_heap = Exc e h')
     <-> consumed_flag compiled_heap (ARouter 0) = Some true).
Proof.
  split.
  - apply (throws_iff_receiver_consumed index_ts
             (OnRouter 0 (Use (UsePath "/blog") (UseHandler (then_handler index_ts step_ok))))
             (ARouter 0) fresh_heap).
    + reflexivity.
    + reflexivity.
    + exists false. reflexivity.
  - apply (throws_iff_receiver_consumed index_ts
             (OnRouter 0 (Use (UsePath "/blog") (UseHandler (then_handler index_ts step_ok))))
             (ARouter 0) compiled_heap).
    + reflexivity.
    + reflexivity.
    + exists true. reflexivity.
Defined.

(** ** Routers and their LeafRouters are consumed separately *)

Section Preserves.

Variable R : Heap -> Heap -> Prop.
Hypothesis R_refl : forall h, R h h.
Hypothesis R_trans : forall h1 h2 h3, R h1 h2 -> R h2 h3 -> R h1 h3.

Lemma preserves_ret {A : Type} (a : A) : preserves R (ret a).
Proof. intros h h' [= <-]. apply R_refl. Qed.

Lemma preserves_bind {A B : Type} (c : M A) (k : A -> M B) :
  preserves R c -> (forall a, preserves R (k a)) -> preserves R (bind c k).
Proof.
  intros Hc Hk h h'. unfold bind.
  destruct (c h) as [a h1|e h1|] eqn:Ec; simpl; [| |done].
  - intros Hh'. apply R_trans with h1; [apply Hc; by rewrite Ec | by apply (Hk a)].
  - intros [= <-]. apply Hc. by rewrite Ec.
Qed.

Lemma preserves_same {A : Type} (c : M A) :
  (forall h h', heap_of (c h) = Some h' -> h' = h) -> preserves R c.
Proof. intros Hc h h' Hh'. rewrite (Hc h h' Hh'). apply R_refl. Qed.

Lemma preserves_express_use e args :
  (forall l, preserves R (express_register e l)) -> preserves R (express_use e args).
Proof.
  intros Hreg h h' [->|[l Hl]]%express_use_heap; [apply R_refl|].
  apply (Hreg l). by rewrite Hl.
Qed.

End Preserves.

Lemma leaves_kept_refl h : leaves_kept h h.
Proof. by intros l o. Qed.

Lemma leaves_kept_trans h1 h2 h3 :
  leaves_kept h1 h2 -> leaves_kept h2 h3 -> leaves_kept h1 h3.
Proof. intros H12 H23 l o Ho. by apply H23, H12. Qed.

Lemma routers_kept_refl h : routers_kept h h.
Proof. done. Qed.

Lemma routers_kept_trans h1 h2 h3 :
  routers_kept h1 h2 -> routers_kept h2 h3 -> routers_kept h1 h3.
Proof. unfold routers_kept. congruence. Qed.

Lemma Router_checkConsumed_same this h h' :
  heap_of (Router_checkConsumed this h) = Some h' -> h' = h.
Proof.
  unfold Router_checkConsumed. destruct (routers h !! this) as [o|]; [|done].
  destruct (checkConsumed _); simpl; congruence.
Qed.

Lemma Router_get_router_same this h h' :
  heap_of (Router_get_router this h) = Some h' -> h' = h.
Proof.
  unfold Router_get_router. destruct (routers h !! this) as [o|]; [|done].
  simpl; congruence.
Qed.

Lemma LeafRouter_fields_same this h h' :
  heap_of (LeafRouter_fields this h) = Some h' -> h' = h.
Proof.
  unfold LeafRouter_fields. destruct (leaves h !! this) as [o|]; [|done].
  simpl; congruence.
Qed.

Lemma leaves_kept_Router_consume this : preserves leaves_kept (Router_consume this).
Proof.
  intros h h'. unfold Router_consume.
  destruct (routers h !! this) as [o|]; [|done].
  destruct (consume _); simpl; intros [= <-]; by intros ? ?.
Qed.

Lemma leaves_kept_express_register e l : preserves leaves_kept (express_register e l).
Proof.
  intros h h'. unfold express_register.
  destruct (express h !! e) as [ls|]; [|done]. simpl. intros [= <-].
  by intros ? ?.
Qed.

Lemma leaves_kept_Router_new router : preserves leaves_kept (Router_new router).
Proof.
  intros h h'. unfold Router_new, bind.
  destruct router; simpl; intros [= <-]; by intros ? ?.
Qed.

Lemma leaves_kept_LeafRouter_new e m path hs :
  preserves leaves_kept (LeafRouter_new e m path hs).
Proof.
  intros h h' [= <-] l o Ho. simpl. by apply lookup_app_l_Some.
Qed.

Ltac leaves_kept_chain :=
  repeat first
    [ apply leaves_kept_Router_consume
    | apply leaves_kept_express_register
    | apply (preserves_express_use leaves_kept leaves_kept_refl); intros
    | apply leaves_kept_Router_new
    | apply leaves_kept_LeafRouter_new
    | apply (preserves_ret leaves_kept leaves_kept_refl)
    | apply (preserves_same leaves_kept leaves_kept_refl), Router_checkConsumed_same
    | apply (preserves_same leaves_kept leaves_kept_refl), Router_get_router_same
    | apply (preserves_bind leaves_kept leaves_kept_trans); [|intros] ].

Lemma leaves_kept_Router_toExpress this : preserves leaves_kept (Router_toExpress this).
Proof. unfold Router_toExpress. leaves_kept_chain. Qed.

Lemma leaves_kept_compile_arg a : preserves leaves_kept (compile_arg a).
Proof.
  destruct a; simpl; try apply (preserves_ret leaves_kept leaves_kept_refl).
  apply (preserves_bind leaves_kept leaves_kept_trans);
    [apply leaves_kept_Router_toExpress|intros].
  apply (preserves_ret leaves_kept leaves_kept_refl).
Qed.

(** X4. No call on a [Router], returning or throwing, writes to a
    [LeafRouter]: every [LeafRouter] that existed keeps all its fields, so
    one that was not consumed still is not after its [Router] has been
    consumed. *)
Theorem Router_calls_leave_LeafRouters
    (v : Revision) (this : nat) (c : RouterCall) (h h' : Heap)
    (l : nat) (o : LeafRouterObj) :
  heap_of (perform v (OnRouter this c) h) = Some h' ->
  leaves h !! l = Some o ->
  leaves h' !! l = Some o.
Proof.
  intros Hrun. revert l o.
  change (leaves_kept h h'). revert h h' Hrun.
  change (preserves leaves_kept (perform v (OnRouter this c))).
  destruct c; simpl; unfold returning, Router_use, Router_use_fn, Router_then,
    Router_method.
  all: apply (preserves_bind leaves_kept leaves_kept_trans);
    [|intros; apply (preserves_ret leaves_kept leaves_kept_refl)].
  - apply (preserves_bind leaves_kept leaves_kept_trans);
      [apply leaves_kept_Router_consume|intros].
    apply (preserves_bind leaves_kept leaves_kept_trans);
      [apply leaves_kept_compile_arg|intros].
    apply (preserves_bind leaves_kept leaves_kept_trans);
      [apply leaves_kept_compile_arg|intros].
    leaves_kept_chain.
  - leaves_kept_chain.
  - leaves_kept_chain.
  - leaves_kept_chain.
  - apply leaves_kept_Router_toExpress.
Qed.

(** [r.toExpress()] with a [LeafRouter] of [r] pending. *)
Lemma Router_calls_leave_LeafRouters_witness :
  leaves (mkHeap [mkRouter true 0] [mkLeafRouter false 0 get "/hello" []] [[]]) !! 0
    = Some (mkLeafRouter false 0 get "/hello" []).
Proof.
  apply (Router_calls_leave_LeafRouters index_ts 0 ToExpress leaf_heap).
  - reflexivity.
  - reflexivity.
Defined.

Lemma routers_kept_LeafRouter_consume this : preserves routers_kept (LeafRouter_consume this).
Proof.
  intros h h'. unfold LeafRouter_consume.
  destruct (leaves h !! this) as [o|]; [|done].
  by destruct (consume _); simpl; intros [= <-].
Qed.

Lemma routers_kept_express_register e l : preserves routers_kept (express_register e l).
Proof.
  intros h h'. unfold express_register.
  destruct (express h !! e) as [ls|]; [|done]. simpl. by intros [= <-].
Qed.

Lemma routers_kept_LeafRouter_new e m path hs :
  preserves routers_kept (LeafRouter_new e m path hs).
Proof. by intros h h' [= <-]. Qed.

Ltac routers_kept_chain :=
  unfold express_method;
  repeat first
    [ apply routers_kept_LeafRouter_consume
    | apply routers_kept_express_register
    | apply routers_kept_LeafRouter_new
    | apply (preserves_ret routers_kept routers_kept_refl)
    | apply (preserves_same routers_kept routers_kept_refl), LeafRouter_fields_same
    | apply (preserves_bind routers_kept routers_kept_trans); [|intros] ].

(** X5. No call on a [LeafRouter], returning or throwing, writes to or
    allocates a [Router]: closing an endpoint with [return] or [finish]
    does not consume the [Router] it came from. *)
Theorem LeafRouter_calls_leave_Routers
    (v : Revision) (this : nat) (c : LeafRouterCall) (h h' : Heap) :
  heap_of (perform v (OnLeafRouter this c) h) = Some h' ->
  routers h' = routers h.
Proof.
  revert h h'. change (preserves routers_kept (perform v (OnLeafRouter this c))).
  destruct c; simpl; unfold returning, LeafRouter_then, LeafRouter_return,
    LeafRouter_finish; routers_kept_chain.
Qed.

(** [l.then(step_ok)] leaves router 0 as it was. *)
Lemma LeafRouter_calls_leave_Routers_witness :
  routers leaf_then_heap = routers leaf_heap.
Proof.
  apply (LeafRouter_calls_leave_Routers index_ts 0 (LeafThen step_ok) leaf_heap).
  reflexivity.
Defined.

(** X6. [toExpress] does not freeze the list it returns.  A [LeafRouter]
    spawned from the [Router] before can still be closed afterwards, and
    its route is appended to the [ExpressRouter] that was handed out. *)
Theorem endpoint_closed_after_export
    (v : Revision) (this l e : nat) (m : Method) (path : string)
    (hs : list RequestHandler) (ls : list Layer) (t : Terminal) (h : Heap) :
  routers h !! this = Some (mkRouter false e) ->
  leaves h !! l = Some (mkLeafRouter false e m path hs) ->
  express h !! e = Some ls ->
  exists h1 h2,
    Router_toExpress this h = Val e h1 /\
    LeafRouter_close v l t h1 = Val tt h2 /\
    express h1 !! e = Some ls /\
    express h2 !! e = Some (ls ++ [LayerRoute m path (hs ++ [terminal_handler v t])]).
Proof.
  intros Hthis Hl He.
  rewrite (Router_toExpress_run this e h Hthis). eexists _, _. split; [done|].
  erewrite (LeafRouter_close_run v l t e m path hs ls) by done.
  split; [done|]. split; [done|]. simpl.
  by rewrite list_lookup_insert_eq by (by eapply lookup_lt_Some).
Qed.

Lemma endpoint_closed_after_export_witness :
  exists h1 h2,
    Router_toExpress 0 leaf_heap = Val 0 h1 /\
    LeafRouter_close index_ts 0 (ByReturn result_body) h1 = Val tt h2 /\
    express h1 !! 0 = Some [] /\
    express h2 !! 0
      = Some ([] ++ [LayerRoute get "/hello"
                       ([] ++ [terminal_handler index_ts (ByReturn result_body)])]).
Proof.
  apply (endpoint_closed_after_export index_ts 0 0 0 get "/hello" [] []
           (ByReturn result_body) leaf_heap).
  - reflexivity.
  - reflexivity.
  - reflexivity.
Defined.

(** ** Delegation *)

Lemma compile_arg_compiled a h a' h' :
  compile_arg a h = Val a' h' -> compiled h a = Some a'.
Proof.
  destruct a; simpl; try (unfold ret; by intros ?; simplify_eq).
  intros (e & h0 & [_ He]%Router_toExpress_Val & Hret)%bind_Val.
  unfold ret in Hret. simplify_eq. by rewrite He.
Qed.

Lemma same_shape_compiled h h' a :
  same_shape h h' -> compiled h' a = compiled h a.
Proof. intros (_ & _ & _ & Hr). destruct a; simpl; [done..| |done|done]. by rewrite Hr. Qed.

(** X7. A [use] that returns registers exactly one layer, on the
    receiver's [ExpressRouter], holding its two arguments in order with
    each [Router] instance replaced by the very [ExpressRouter] that
    instance wraps: the delegate is mounted by reference, not copied. *)
Theorem use_mounts_by_reference
    (this : nat) (first second : UseArg) (r' : nat) (h h' : Heap) :
  Router_use this first second h = Val r' h' ->
  exists e a1 a2,
    wrapped h (ARouter this) = Some e /\
    compiled h first = Some a1 /\
    compiled h second = Some a2 /\
    registered h h' e (LayerUse [a1; a2]).
Proof.
  intros Huse. pose proof Huse as Huse'. revert Huse'. unfold Router_use at 1.
  intros (u & h0 & S0%Router_consume_shape
            & (a1 & ha & Ha & (a2 & hb & Hb & Htail)%bind_Val)%bind_Val)%bind_Val.
  pose proof (compile_arg_shape _ _ _ _ Ha) as Sa.
  pose proof (compile_arg_shape _ _ _ _ Hb) as Sb.
  apply compile_arg_compiled in Ha, Hb.
  rewrite (same_shape_compiled h h0) in Ha by done.
  rewrite (same_shape_compiled h ha) in Hb by (by eapply same_shape_trans).
  assert (same_shape h hb) as S
    by (eapply same_shape_trans; [|done]; by eapply same_shape_trans).
  destruct (register_and_renew_Val _ _ _ _ _ Htail) as (e & He & Hreg & _).
  exists e, a1, a2. pose proof S as (_ & _ & _ & SR). simpl.
  split; [by rewrite <- SR|]. split; [done|]. split; [done|].
  by eapply same_shape_registered.
Qed.

(** [main.use("/blog", blog)]: the layer holds the path and Express
    router 1, the one [blog] wraps. *)
Lemma use_mounts_by_reference_witness :
  exists e a1 a2,
    wrapped two_routers (ARouter 0) = Some e /\
    compiled two_routers (UsePath "/blog") = Some a1 /\
    compiled two_routers (UseRouter 1) = Some a2 /\
    registered two_routers two_routers_used e (LayerUse [a1; a2]).
Proof.
  apply (use_mounts_by_reference 0 (UsePath "/blog") (UseRouter 1) 2).
  reflexivity.
Defined.

Lemma compile_arg_refuses d h :
  consumed_flag h (ARouter d) = Some true ->
  compile_arg (UseRouter d) h = Exc UseAfterConsume h.
Proof.
  intros Hd. simpl. unfold Router_toExpress, bind.
  by rewrite (Router_consume_refuses _ _ Hd).
Qed.

Lemma compile_arg_keeps_consumed a h a' h' b :
  compile_arg a h = Val a' h' ->
  consumed_flag h b = Some true ->
  consumed_flag h' b = Some true.
Proof.
  intros Ha. apply consumed_flag_stays, (grows_compile_arg a). by rewrite Ha.
Qed.

(** X8. [use] never returns when its receiver is also one of its
    arguments, or when the same [Router] is passed in both positions: the
    second [toExpress()] on the instance throws.  A [Router] cannot be
    mounted into itself, nor twice by one call. *)
Theorem use_rejects_a_router_used_twice
    (this : nat) (first second : UseArg) (h : Heap) (r' : nat) (h' : Heap) :
  first = UseRouter this \/ second = UseRouter this \/
    (exists d, first = UseRouter d /\ second = UseRouter d) ->
  Router_use this first second h <> Val r' h'.
Proof.
  intros Hargs Huse. revert Huse. unfold Router_use.
  intros (u & h0 & Hc & (a1 & ha & Ha & (a2 & hb & Hb & _)%bind_Val)%bind_Val)%bind_Val.
  assert (consumed_flag h0 (ARouter this) = Some true) as Hthis.
  { apply Router_consume_Val in Hc as (e & He & ->). simpl.
    by rewrite list_lookup_insert_eq by (by eapply lookup_lt_Some). }
  destruct Hargs as [->|[->|(d & -> & ->)]].
  - by rewrite (compile_arg_refuses _ _ Hthis) in Ha.
  - pose proof (compile_arg_keeps_consumed _ _ _ _ _ Ha Hthis) as Hthis'.
    by rewrite (compile_arg_refuses _ _ Hthis') in Hb.
  - pose proof (compile_arg_marks _ _ _ _ Ha) as Hd.
    by rewrite (compile_arg_refuses _ _ Hd) in Hb.
Qed.

(** [main.use(main)] on two fresh routers. *)
Lemma use_rejects_a_router_used_twice_witness :
  Router_use 0 (UseRouter 0) UseUndefined two_routers <> Val 2 two_routers.
Proof.
  apply (use_rejects_a_router_used_twice 0 (UseRouter 0) UseUndefined two_routers).
  left. reflexivity.
Defined.

(** ** One live handle per chain *)

Lemma shrinks_refl h : shrinks h h.
Proof. split; [done|]. split; [|done]. intros r o Ho. by exists o. Qed.

Lemma shrinks_trans h1 h2 h3 : shrinks h1 h2 -> shrinks h2 h3 -> shrinks h1 h3.
Proof.
  intros (L1 & R1 & E1) (L2 & R2 & E2). split; [auto|]. split; [|lia].
  intros r o3 Ho3. destruct (R2 _ _ Ho3) as (o2 & Ho2 & H23).
  destruct (R1 _ _ Ho2) as (o1 & Ho1 & H12). exists o1. split; [done | congruence].
Qed.

Lemma shrinks_same_routers h h' :
  routers h' = routers h -> length (express h) <= length (express h') -> shrinks h h'.
Proof.
  intros Hr He. unfold shrinks, live_over. rewrite Hr. split; [done|]. split; [|done].
  intros r o Ho. by exists o.
Qed.

Lemma chain_heap_shrinks h h' : chain_heap h -> shrinks h h' -> chain_heap h'.
Proof.
  intros [Hsole Halloc] (HL & HR & HE). split.
  - intros e r1 r2 H1 H2. apply (Hsole e); by apply HL.
  - intros r o' Ho'. destruct (HR _ _ Ho') as (o & Ho & <-).
    specialize (Halloc _ _ Ho). lia.
Qed.

Lemma shrinks_Router_consume this : preserves shrinks (Router_consume this).
Proof.
  intros h h'. unfold Router_consume, consume, checkConsumed.
  destruct (routers h !! this) as [o|] eqn:E; [|done].
  destruct (Router_consumed o); simpl; intros [= <-]; [apply shrinks_refl|].
  pose proof (lookup_lt_Some _ _ _ E) as Hlt.
  unfold shrinks, live_over. simpl. split; [|split; [|done]].
  - intros e r. destruct (decide (this = r)) as [->|Hne].
    + by rewrite list_lookup_insert_eq by done.
    + by rewrite list_lookup_insert_ne by done.
  - intros r o'. destruct (decide (this = r)) as [->|Hne].
    + rewrite list_lookup_insert_eq by done. intros [= <-]. by exists o.
    + rewrite list_lookup_insert_ne by done. intros Ho'. by exists o'.
Qed.

Lemma shrinks_express_register e l : preserves shrinks (express_register e l).
Proof.
  intros h h'. unfold express_register.
  destruct (express h !! e) as [ls|]; [|done]. simpl. intros [= <-].
  apply shrinks_same_routers; [done|]. simpl. by rewrite length_insert.
Qed.

Lemma shrinks_LeafRouter_new e m path hs : preserves shrinks (LeafRouter_new e m path hs).
Proof. intros h h' [= <-]. by apply shrinks_same_routers. Qed.

Lemma shrinks_LeafRouter_consume this : preserves shrinks (LeafRouter_consume this).
Proof.
  intros h h'. unfold LeafRouter_consume.
  destruct (leaves h !! this) as [o|]; [|done].
  destruct (consume _); simpl; intros [= <-]; by apply shrinks_same_routers.
Qed.

Ltac shrinks_chain :=
  unfold express_method;
  repeat first
    [ apply shrinks_Router_consume
    | apply shrinks_express_register
    | apply (preserves_express_use shrinks shrinks_refl); intros
    | apply shrinks_LeafRouter_new
    | apply shrinks_LeafRouter_consume
    | apply (preserves_ret shrinks shrinks_refl)
    | apply (preserves_same shrinks shrinks_refl), Router_checkConsumed_same
    | apply (preserves_same shrinks shrinks_refl), Router_get_router_same
    | apply (preserves_same shrinks shrinks_refl), LeafRouter_fields_same
    | apply (preserves_bind shrinks shrinks_trans); [|intros] ].

Lemma shrinks_Router_toExpress this : preserves shrinks (Router_toExpress this).
Proof. unfold Router_toExpress. shrinks_chain. Qed.

Lemma shrinks_compile_arg a : preserves shrinks (compile_arg a).
Proof.
  destruct a; simpl; try apply (preserves_ret shrinks shrinks_refl).
  apply (preserves_bind shrinks shrinks_trans); [apply shrinks_Router_toExpress|intros].
  apply (preserves_ret shrinks shrinks_refl).
Qed.

Lemma throws_shrunk_unfailing {A : Type} (c : M A) : unfailing c -> throws_shrunk c.
Proof. intros Hc h e h' Heq. specialize (Hc h). by rewrite Heq in Hc. Qed.

Lemma throws_shrunk_bind {A B : Type} (c : M A) (k : A -> M B) :
  preserves shrinks c -> (forall a, throws_shrunk (k a)) -> throws_shrunk (bind c k).
Proof.
  intros Hc Hk h e h'. unfold bind.
  destruct (c h) as [a h1|e1 h1|] eqn:Ec; [| |done].
  - intros Hka. apply shrinks_trans with h1; [apply Hc; by rewrite Ec | by eapply Hk].
  - intros [= _ <-]. apply Hc. by rewrite Ec.
Qed.

Lemma heap_of_returning {A : Type} (f : A -> Value) (c : M A) h :
  heap_of (returning f c h) = heap_of (c h).
Proof. unfold returning, bind, ret. by destruct (c h). Qed.

Lemma register_and_renew_exact this args hb r' h' :
  (let* e := Router_get_router this in
   express_use e args;; Router_new (Some e)) hb = Val r' h' ->
  exists e ls, Router_router <$> routers hb !! this = Some e /\
    express hb !! e = Some ls /\
    h' = mkHeap (routers hb ++ [mkRouter false e]) (leaves hb)
                (<[e := ls ++ [LayerUse args]]> (express hb)).
Proof.
  unfold bind at 1. unfold Router_get_router.
  destruct (routers hb !! this) as [o|]; [|done]. simpl.
  intros (u & h1 & Huse & Hnew)%bind_Val.
  pose proof (express_use_Val_accepted _ _ _ _ _ Huse) as Hok.
  rewrite express_use_accepts in Huse by done.
  revert Huse Hnew. unfold express_register, Router_new, bind, ret.
  destruct (express hb !! Router_router o) as [ls|] eqn:E; [|done].
  intros ? ?; simplify_eq. by exists (Router_router o), ls.
Qed.

Lemma chain_heap_renew h e ls x :
  chain_heap h ->
  (forall r, ~ live_over h e r) ->
  express h !! e = Some ls ->
  chain_heap (mkHeap (routers h ++ [mkRouter false e]) (leaves h) (<[e := x]> (express h))).
Proof.
  intros [Hsole Halloc] Hnone He. pose proof (lookup_lt_Some _ _ _ He) as Hlt.
  assert (forall e0 r, live_over
            (mkHeap (routers h ++ [mkRouter false e]) (leaves h) (<[e := x]> (express h)))
            e0 r -> live_over h e0 r \/ (r = length (routers h) /\ e0 = e)) as Hcases.
  { intros e0 r. unfold live_over. simpl. rewrite lookup_snoc_Some.
    intros [[_ Hr]|[-> [= <-]]]; [by left | by right]. }
  split.
  - intros e0 r1 r2 [H1|[-> ->]]%Hcases [H2|[-> E2]]%Hcases.
    + by apply (Hsole e0).
    + subst. by destruct (Hnone r1).
    + by destruct (Hnone r2).
    + done.
  - intros r o. simpl. rewrite length_insert, lookup_snoc_Some.
    intros [[_ Hr]|[_ <-]]; [by apply (Halloc r) | done].
Qed.

Lemma chain_heap_then_like h h0 hb this e args r' h' :
  chain_heap h ->
  routers h !! this = Some (mkRouter false e) ->
  h0 = mkHeap (<[this := mkRouter true e]> (routers h)) (leaves h) (express h) ->
  shrinks h0 hb ->
  heap_le h0 hb ->
  (let* e := Router_get_router this in
   express_use e args;; Router_new (Some e)) hb = Val r' h' ->
  chain_heap h'.
Proof.
  intros Hchain Hthis -> Hshrunk Hle Htail.
  pose proof (lookup_lt_Some _ _ _ Hthis) as Hlt.
  assert (shrinks h hb) as Hs.
  { apply shrinks_trans with
      (mkHeap (<[this := mkRouter true e]> (routers h)) (leaves h) (express h)); [|done].
    apply (shrinks_Router_consume this h). unfold Router_consume. by rewrite Hthis. }
  assert (routers hb !! this = Some (mkRouter true e)) as Hthis'.
  { destruct (le_routers _ _ Hle this (mkRouter true e)) as ([c e'] & Ho' & He' & Hc').
    { simpl. by apply list_lookup_insert_eq. }
    simpl in *. subst e'. by rewrite (Hc' eq_refl) in Ho'. }
  apply register_and_renew_exact in Htail as (e' & ls & He' & Hls & ->).
  rewrite Hthis' in He'. simpl in He'. simplify_eq.
  apply chain_heap_renew with ls; [by eapply chain_heap_shrinks| |done].
  intros r Hr. pose proof Hr as Hr0. destruct Hs as (HL & _). apply HL in Hr0.
  destruct Hchain as [Hsole _].
  assert (r = this) as -> by (by eapply Hsole).
  unfold live_over in Hr. congruence.
Qed.

(** When the engine rejects the arguments of [use], the receiver stays
    consumed and no [Router] is made. *)
Lemma throws_shrunk_renew this args :
  throws_shrunk (let* e := Router_get_router this in
                 express_use e args;; Router_new (Some e)).
Proof.
  apply throws_shrunk_bind;
    [apply (preserves_same shrinks shrinks_refl), Router_get_router_same|intros e].
  apply throws_shrunk_bind;
    [apply (preserves_express_use shrinks shrinks_refl); intros;
     apply shrinks_express_register|intros].
  apply throws_shrunk_unfailing, unfailing_Router_new.
Qed.

Lemma chain_heap_Router_new_None h r h' :
  chain_heap h -> Router_new None h = Val r h' -> chain_heap h'.
Proof.
  intros [Hsole Halloc]. unfold Router_new, bind, express_new. intros ?; simplify_eq.
  assert (forall e0 r, live_over
            (mkHeap (routers h ++ [mkRouter false (length (express h))]) (leaves h)
                    (express h ++ [[]]))
            e0 r -> live_over h e0 r \/ (r = length (routers h) /\ e0 = length (express h)))
    as Hcases.
  { intros e0 r. unfold live_over. simpl. rewrite lookup_snoc_Some.
    intros [[_ Hr]|[-> [= <-]]]; [by left | by right]. }
  split.
  - intros e0 r1 r2 [H1|[-> ->]]%Hcases [H2|[-> E2]]%Hcases.
    + by apply (Hsole e0).
    + subst. specialize (Halloc _ _ H1). simpl in Halloc. lia.
    + specialize (Halloc _ _ H2). simpl in Halloc. lia.
    + done.
  - intros r o. simpl. rewrite length_app, lookup_snoc_Some. simpl.
    intros [[_ Hr]|[_ <-]]; [specialize (Halloc _ _ Hr); lia | simpl; lia].
Qed.

(** X10. Unless client code builds a [Router] over an [ExpressRouter] it
    already holds ([new Router(router)]), the library keeps this invariant
    across every call, returning or throwing: no [ExpressRouter] has two
    unconsumed [Router]s over it, and every [Router] wraps an
    [ExpressRouter] that exists.  The [Router] a call returns is the one
    live handle of the chain. *)
Theorem one_live_router_per_chain (v : Revision) (a : Action) (h h' : Heap) :
  chain_heap h ->
  chain_call a = true ->
  heap_of (perform v a h) = Some h' ->
  chain_heap h'.
Proof.
  intros Hchain Hcall.
  destruct a as [[e0|]|this c|this c]; [by simpl in Hcall|..];
    cbn [perform Router_call LeafRouter_call].
  - rewrite heap_of_returning.
    destruct (Router_new None h) as [r h1|e h1|] eqn:Hnew; simpl; [|exfalso|done].
    + intros [= <-]. by eapply chain_heap_Router_new_None.
    + by destruct (unfailing_not_Exc _ h (unfailing_Router_new None) e h1).
  - destruct c as [first second|fn|fn|m path|]; cbn [Router_call];
      rewrite heap_of_returning.
    + destruct (Router_use this first second h) as [r h1|e h1|] eqn:Hop;
        simpl; [| |done]; intros [= <-].
      * revert Hop. unfold Router_use.
        intros (u & h0 & (e & He & ->)%Router_consume_Val
                  & (a1 & ha & Ha & (a2 & hb & Hb & Htail)%bind_Val)%bind_Val)%bind_Val.
        eapply (chain_heap_then_like h _ hb this e); [done|done|done| | |exact Htail].
        -- apply shrinks_trans with ha;
             [apply (shrinks_compile_arg first) | apply (shrinks_compile_arg second)];
             by rewrite ?Ha, ?Hb.
        -- apply heap_le_trans with ha;
             [apply (grows_compile_arg first) | apply (grows_compile_arg second)];
             by rewrite ?Ha, ?Hb.
      * apply chain_heap_shrinks with h; [done|]. revert Hop.
        apply throws_shrunk_bind; [apply shrinks_Router_consume|intros].
        apply throws_shrunk_bind; [apply shrinks_compile_arg|intros].
        apply throws_shrunk_bind; [apply shrinks_compile_arg|intros].
        apply throws_shrunk_renew.
    + destruct (Router_use_fn this fn h) as [r h1|e h1|] eqn:Hop;
        simpl; [| |done]; intros [= <-].
      * revert Hop. unfold Router_use_fn.
        intros (u & h0 & (e & He & ->)%Router_consume_Val & Htail)%bind_Val.
        eapply (chain_heap_then_like h _ _ this e);
          [done|done|done|apply shrinks_refl|apply heap_le_refl|exact Htail].
      * apply chain_heap_shrinks with h; [done|]. revert Hop.
        apply throws_shrunk_bind; [apply shrinks_Router_consume|intros].
        apply throws_shrunk_renew.
    + destruct (Router_then v this fn h) as [r h1|e h1|] eqn:Hop;
        simpl; [| |done]; intros [= <-].
      * revert Hop. unfold Router_then.
        intros (u & h0 & (e & He & ->)%Router_consume_Val & Htail)%bind_Val.
        eapply (chain_heap_then_like h _ _ this e);
          [done|done|done|apply shrinks_refl|apply heap_le_refl|exact Htail].
      * apply chain_heap_shrinks with h; [done|]. revert Hop.
        apply throws_shrunk_bind; [apply shrinks_Router_consume|intros].
        apply throws_shrunk_renew.
    + intros Hh'. apply chain_heap_shrinks with h; [done|]. revert Hh'.
      generalize h h'. change (preserves shrinks (Router_method m this path)).
      unfold Router_method. shrinks_chain.
    + intros Hh'. apply chain_heap_shrinks with h; [done|].
      by apply (shrinks_Router_toExpress this).
  - intros Hh'. apply chain_heap_shrinks with h; [done|]. revert Hh'.
    generalize h h'. change (preserves shrinks (perform v (OnLeafRouter this c))).
    destruct c; simpl; unfold returning, LeafRouter_then, LeafRouter_return,
      LeafRouter_finish; shrinks_chain.
Qed.

(** [r.then(step_ok)] on a fresh router: the receiver is consumed and the
    router returned is the one live handle. *)
Lemma one_live_router_per_chain_witness :
  chain_heap (mkHeap [mkRouter true 0; mkRouter false 0] []
                     [[use_layer index_ts step_ok]]).
Proof.
  apply (one_live_router_per_chain index_ts (OnRouter 0 (Then step_ok)) fresh_heap).
  - split.
    + intros e r1 r2 H1 H2. unfold live_over in H1, H2.
      destruct r1 as [|r1]; [|by destruct r1].
      destruct r2 as [|r2]; [|by destruct r2]. reflexivity.
    + intros r o Ho. destruct r as [|r]; [|by destruct r].
      simpl in Ho. simplify_eq. simpl. lia.
  - reflexivity.
  - reflexivity.
Defined.

(** ** The whole run of a chain *)

Lemma then_handler_fails_run v fn req res e :
  await (fn req).2 = inl e ->
  then_handler v fn req res = mkRun (fn req).1 res [InvStep fn] (failure_signal v e).
Proof.
  intros Hko. destruct v; simpl;
    unfold then_handler_plain, then_handler_caught;
    destruct (fn req) as [req' c]; simpl in *; by rewrite Hko.
Qed.

Lemma failure_signal_stops v e : failure_signal v e <> SNext.
Proof. by destruct v. Qed.

Lemma pipeline_run_stops v t fns : forall req res,
  run_signal (pipeline_run v fns t req res) <> SNext.
Proof.
  induction fns as [|fn fns IH]; intros req res; simpl.
  - apply terminal_handler_ends.
  - destruct (fn req) as [req' c]. destruct (await c); simpl.
    + apply failure_signal_stops.
    + apply IH.
Qed.

Lemma run_handlers_pipeline v t steps : forall req res,
  run_handlers (map (then_handler v) steps ++ [terminal_handler v t]) req res
    = Some (pipeline_run v steps t req res).
Proof.
  induction steps as [|fn steps IH]; intros req res; simpl.
  - apply continue_stops, terminal_handler_ends.
  - destruct (await (fn req).2) as [e|x] eqn:Hfn.
    + rewrite (then_handler_fails_run v fn req res e Hfn).
      rewrite continue_stops by apply failure_signal_stops.
      destruct (fn req) as [req' c]. simpl in *. by rewrite Hfn.
    + rewrite (then_handler_passes v fn req res x Hfn). unfold continue. simpl.
      rewrite IH. destruct (fn req) as [req' c]. simpl in *. by rewrite Hfn.
Qed.

Section Runs.

Variable route_matches : Method -> string -> Request -> bool.
Variable mount_matches : string -> Request -> bool.
Variable mount_strip : string -> Request -> Request.
Variable mount_restore : string -> Request -> Request.
Variable mounted : nat -> Request -> Response -> option HandlerRun.

Lemma run_layers_pipeline v m path t steps pre : forall req res,
  (forall req1, pass pre req = Some req1 -> route_matches m path req1 = true) ->
  run_layers route_matches mount_matches mount_strip mount_restore mounted
    (map (use_layer v) pre
       ++ [LayerRoute m path (map (then_handler v) steps ++ [terminal_handler v t])])
    req res
  = Some (pipeline_run v (pre ++ steps) t req res).
Proof.
  induction pre as [|fn pre IH]; intros req res Hmatch; simpl.
  - rewrite Hmatch by done. rewrite run_handlers_pipeline.
    apply continue_stops, pipeline_run_stops.
  - destruct (await (fn req).2) as [e|x] eqn:Hfn.
    + rewrite (then_handler_fails_run v fn req res e Hfn).
      rewrite !continue_stops by apply failure_signal_stops.
      destruct (fn req) as [req' c]. simpl in *. by rewrite Hfn.
    + rewrite (then_handler_passes v fn req res x Hfn). unfold continue. simpl.
      rewrite IH.
      * destruct (fn req) as [req' c]. simpl in *. by rewrite Hfn.
      * intros req1 Hpass. apply Hmatch. simpl.
        destruct (fn req) as [req' c]. simpl in *. by rewrite Hfn.
Qed.

Lemma run_layers_unmatched v m path hs pre : forall req res req1,
  pass pre req = Some req1 ->
  route_matches m path req1 = false ->
  run_layers route_matches mount_matches mount_strip mount_restore mounted
    (map (use_layer v) pre ++ [LayerRoute m path hs]) req res
  = Some (mkRun req1 res (map InvStep pre) SNext).
Proof.
  induction pre as [|fn pre IH]; intros req res req1; simpl.
  - intros [= <-] ->. done.
  - destruct (await (fn req).2) as [e|x] eqn:Hfn.
    + destruct (fn req) as [req' c]. simpl in *. by rewrite Hfn.
    + rewrite (then_handler_passes v fn req res x Hfn). unfold continue. simpl.
      destruct (fn req) as [req' c]. simpl in *. rewrite Hfn.
      intros Hpass Hroute. by rewrite (IH req' res req1 Hpass Hroute).
Qed.

End Runs.

Lemma pipeline_run_all_pass v t fns : forall req res reqn,
  pass fns req = Some reqn ->
  pipeline_run v fns t req res
    = mkRun (run_req (terminal_handler v t reqn res))
            (run_res (terminal_handler v t reqn res))
            (map InvStep fns ++ run_calls (terminal_handler v t reqn res))
            (run_signal (terminal_handler v t reqn res)).
Proof.
  induction fns as [|fn fns IH]; intros req res reqn; simpl.
  - intros [= <-]. by destruct (terminal_handler v t req res).
  - destruct (fn req) as [req' c]. destruct (await c); [done|].
    intros Hpass. by rewrite (IH req' res reqn Hpass).
Qed.

Lemma pipeline_run_failure v t done s rest : forall req res req1 e,
  pass done req = Some req1 ->
  await (s req1).2 = inl e ->
  pipeline_run v (done ++ s :: rest) t req res
    = mkRun (s req1).1 res (map InvStep (done ++ [s])) (failure_signal v e).
Proof.
  induction done as [|fn done IH]; intros req res req1 e; simpl.
  - intros [= <-] He. destruct (s req) as [req' c]. simpl in *. by rewrite He.
  - destruct (fn req) as [req' c]. destruct (await c); [done|].
    intros Hpass He. by rewrite (IH req' res req1 e Hpass He).
Qed.

Lemma endpoint_dispatch
    (route_matches : Method -> string -> Request -> bool)
    (mount_matches : string -> Request -> bool)
    (mount_strip mount_restore : string -> Request -> Request)
    (v : Revision) (this e : nat) (h : Heap)
    (pre : list Step) (m : Method) (path : string) (steps : list Step)
    (t : Terminal) (req : Request) (res : Response) (fuel : nat) :
  routers h !! this = Some (mkRouter false e) ->
  express h !! e = Some [] ->
  (forall req1, pass pre req = Some req1 -> route_matches m path req1 = true) ->
  exists h',
    endpoint v this pre m path steps t h = Val e h' /\
    dispatch route_matches mount_matches mount_strip mount_restore (S fuel) h' e req res
      = Some (pipeline_run v (pre ++ steps) t req res).
Proof.
  intros Hthis He Hmatch.
  destruct (endpoint_run v this pre m path steps t e [] h Hthis He) as (h' & Hbuild & Hx).
  exists h'. split; [done|]. simpl. rewrite Hx. simpl.
  by apply run_layers_pipeline.
Qed.

(** X11. The router a chain compiles to handles a matching request exactly
    as the sequential pipeline does: the steps of [Router.then] and of
    [LeafRouter.then] alike, one after the other on the same request
    object, what a step returns being dropped, stopping at the first
    failure, and then the terminal handler.  Request, response,
    invocations and final signal all agree. *)
Theorem compiled_chain_is_the_pipeline
    (route_matches : Method -> string -> Request -> bool)
    (mount_matches : string -> Request -> bool)
    (mount_strip mount_restore : string -> Request -> Request)
    (v : Revision) (this e : nat) (h : Heap)
    (pre : list Step) (m : Method) (path : string) (steps : list Step)
    (t : Terminal) (req : Request) (res : Response) (fuel : nat) :
  routers h !! this = Some (mkRouter false e) ->
  express h !! e = Some [] ->
  (forall req1, pass pre req = Some req1 -> route_matches m path req1 = true) ->
  exists h',
    endpoint v this pre m path steps t h = Val e h' /\
    dispatch route_matches mount_matches mount_strip mount_restore (S fuel) h' e req res
      = Some (pipeline_run v (pre ++ steps) t req res).
Proof.
  intros Hthis He Hmatch.
  destruct (endpoint_run v this pre m path steps t e [] h Hthis He) as (h' & Hbuild & Hx).
  exists h'. split; [exact Hbuild|].
  cbn [dispatch]. rewrite Hx. cbn [app].
  apply run_layers_pipeline. exact Hmatch.
Qed.

Lemma compiled_chain_is_the_pipeline_witness :
  exists h',
    endpoint part_000 0 [step_ok] get "/hello" [step_async_ok] (ByReturn result_body)
             fresh_heap = Val 0 h' /\
    dispatch sample_route_matches sample_mount_matches sample_mount_strip sample_mount_restore
        1 h' 0
             sample_request blank_response
      = Some (pipeline_run part_000 ([step_ok] ++ [step_async_ok])
                (ByReturn result_body) sample_request blank_response).
Proof.
  apply (compiled_chain_is_the_pipeline sample_route_matches sample_mount_matches
      sample_mount_strip sample_mount_restore
           part_000 0 0 fresh_heap [step_ok] get "/hello" [step_async_ok]
           (ByReturn result_body) sample_request blank_response 0).
  - reflexivity.
  - reflexivity.
  - intros req1 Hpass. simpl in Hpass. injection Hpass as <-. reflexivity.
Defined.

(** X12. When every step of the chain passes and the function given to
    [return] yields [reply], the run sends exactly that one body, calls
    [next] with nothing, and has invoked every step once and in order
    before the function.  The function sees the request as the steps left
    it.  Holds in all three revisions. *)
Theorem return_sends_the_reply_once
    (route_matches : Method -> string -> Request -> bool)
    (mount_matches : string -> Request -> bool)
    (mount_strip mount_restore : string -> Request -> Request)
    (v : Revision) (this e : nat) (h : Heap)
    (pre : list Step) (m : Method) (path : string) (steps : list Step)
    (fn : ResultFn) (req reqn : Request) (res : Response) (reply : JsValue)
    (fuel : nat) :
  routers h !! this = Some (mkRouter false e) ->
  express h !! e = Some [] ->
  (forall req1, pass pre req = Some req1 -> route_matches m path req1 = true) ->
  pass (pre ++ steps) req = Some reqn ->
  await (fn reqn).2 = inr reply ->
  exists h',
    endpoint v this pre m path steps (ByReturn fn) h = Val e h' /\
    dispatch route_matches mount_matches mount_strip mount_restore (S fuel) h' e req res
      = Some (mkRun (fn reqn).1 (res_send res reply)
                (map InvStep (pre ++ steps) ++ [InvResult fn]) SReturned).
Proof.
  intros Hthis He Hmatch Hpass Hreply.
  destruct (endpoint_dispatch route_matches mount_matches mount_strip mount_restore v this e h
              pre m path steps (ByReturn fn) req res fuel Hthis He Hmatch)
    as (h' & Hbuild & Hrun).
  exists h'. split; [done|]. rewrite Hrun.
  rewrite (pipeline_run_all_pass v (ByReturn fn) (pre ++ steps) req res reqn Hpass).
  f_equal. destruct v; simpl;
    unfold return_handler_plain, return_handler_caught;
    destruct (fn reqn) as [req' c]; simpl in *; by rewrite Hreply.
Qed.

Lemma return_sends_the_reply_once_witness :
  exists h',
    endpoint index_ts 0 [step_ok] get "/hello" [step_async_ok] (ByReturn result_body)
             fresh_heap = Val 0 h' /\
    dispatch sample_route_matches sample_mount_matches sample_mount_strip sample_mount_restore
        1 h' 0
             sample_request blank_response
      = Some (mkRun (result_body sample_request).1
                (res_send blank_response (JsStr "hello"))
                (map InvStep ([step_ok] ++ [step_async_ok]) ++ [InvResult result_body])
                SReturned).
Proof.
  apply (return_sends_the_reply_once sample_route_matches sample_mount_matches
      sample_mount_strip sample_mount_restore
           index_ts 0 0 fresh_heap [step_ok] get "/hello" [step_async_ok]
           result_body sample_request sample_request blank_response (JsStr "hello") 0).
  - reflexivity.
  - reflexivity.
  - intros req1 Hpass. simpl in Hpass. injection Hpass as <-. reflexivity.
  - reflexivity.
  - reflexivity.
Defined.

(** X13. When a step of the chain fails with [e] after the steps before it
    passed, the run ends there: the response is as it was before the
    request came in (nothing is sent), no later step and no terminal
    function is invoked, and the failure leaves as [next(e)] in [part_000]
    and as a rejected promise in [src/src/index.ts] and [part_001]. *)
Theorem failing_step_ends_the_run
    (route_matches : Method -> string -> Request -> bool)
    (mount_matches : string -> Request -> bool)
    (mount_strip mount_restore : string -> Request -> Request)
    (v : Revision) (this e : nat) (h : Heap)
    (pre : list Step) (m : Method) (path : string) (steps : list Step)
    (t : Terminal) (req : Request) (res : Response) (fuel : nat)
    (done : list Step) (s : Step) (rest : list Step) (req1 : Request) (err : Exn) :
  routers h !! this = Some (mkRouter false e) ->
  express h !! e = Some [] ->
  (forall req1, pass pre req = Some req1 -> route_matches m path req1 = true) ->
  pre ++ steps = done ++ s :: rest ->
  pass done req = Some req1 ->
  await (s req1).2 = inl err ->
  exists h',
    endpoint v this pre m path steps t h = Val e h' /\
    dispatch route_matches mount_matches mount_strip mount_restore (S fuel) h' e req res
      = Some (mkRun (s req1).1 res (map InvStep (done ++ [s])) (failure_signal v err)).
Proof.
  intros Hthis He Hmatch Hsplit Hpass Hfail.
  destruct (endpoint_dispatch route_matches mount_matches mount_strip mount_restore v this e h
              pre m path steps t req res fuel Hthis He Hmatch)
    as (h' & Hbuild & Hrun).
  exists h'. split; [done|]. rewrite Hrun, Hsplit. f_equal.
  by apply pipeline_run_failure.
Qed.

Lemma failing_step_ends_the_run_witness :
  exists h',
    endpoint part_000 0 [step_ok] get "/hello" [step_rejects; step_ok]
             (ByReturn result_body) fresh_heap = Val 0 h' /\
    dispatch sample_route_matches sample_mount_matches sample_mount_strip sample_mount_restore
        1 h' 0
             sample_request blank_response
      = Some (mkRun (step_rejects sample_request).1 blank_response
                (map InvStep ([step_ok] ++ [step_rejects]))
                (failure_signal part_000 (Error "denied"))).
Proof.
  apply (failing_step_ends_the_run sample_route_matches sample_mount_matches
      sample_mount_strip sample_mount_restore
           part_000 0 0 fresh_heap [step_ok] get "/hello" [step_rejects; step_ok]
           (ByReturn result_body) sample_request blank_response 0
           [step_ok] step_rejects [step_ok] sample_request (Error "denied")).
  - reflexivity.
  - reflexivity.
  - intros req1 Hpass. simpl in Hpass. injection Hpass as <-. reflexivity.
  - reflexivity.
  - reflexivity.
  - reflexivity.
Defined.

Lemma terminal_handler_caught_forwards t req res e :
  terminal_fails t req res e ->
  run_signal (terminal_handler part_000 t req res) = SNextErr e /\
  run_calls (terminal_handler part_000 t req res) = [terminal_invocation t].
Proof.
  destruct t as [fn|fn]; simpl; unfold return_handler_caught, finish_handler_caught.
  - destruct (fn req) as [req' c]. simpl. by intros ->.
  - destruct (fn req res) as [[req' res'] c]. simpl. by intros ->.
Qed.

(** X14. In [part_000], when every step passes and the terminal function
    of [return] or of [finish] fails with [e], synchronously or through a
    rejected promise, the run ends with [next(e)]: one error, forwarded
    once, after every step and the terminal function were invoked once. *)
Theorem part_000_forwards_terminal_failure
    (route_matches : Method -> string -> Request -> bool)
    (mount_matches : string -> Request -> bool)
    (mount_strip mount_restore : string -> Request -> Request)
    (this e : nat) (h : Heap)
    (pre : list Step) (m : Method) (path : string) (steps : list Step)
    (t : Terminal) (req reqn : Request) (res : Response) (err : Exn) (fuel : nat) :
  routers h !! this = Some (mkRouter false e) ->
  express h !! e = Some [] ->
  (forall req1, pass pre req = Some req1 -> route_matches m path req1 = true) ->
  pass (pre ++ steps) req = Some reqn ->
  terminal_fails t reqn res err ->
  exists h' run,
    endpoint part_000 this pre m path steps t h = Val e h' /\
    dispatch route_matches mount_matches mount_strip mount_restore
        (S fuel) h' e req res = Some run /\
    forwarded (run_signal run) = [err] /\
    run_calls run = map InvStep (pre ++ steps) ++ [terminal_invocation t].
Proof.
  intros Hthis He Hmatch Hpass Hfail.
  destruct (endpoint_dispatch route_matches mount_matches mount_strip mount_restore
      part_000 this e h
              pre m path steps t req res fuel Hthis He Hmatch)
    as (h' & Hbuild & Hrun).
  eexists h', _. split; [done|]. split; [exact Hrun|].
  rewrite (pipeline_run_all_pass part_000 t (pre ++ steps) req res reqn Hpass).
  destruct (terminal_handler_caught_forwards t reqn res err Hfail) as [Hsig Hcalls].
  cbn [run_signal run_calls]. by rewrite Hsig, Hcalls.
Qed.

Lemma part_000_forwards_terminal_failure_witness :
  exists h' run,
    endpoint part_000 0 [step_ok] get "/hello" [] (ByReturn result_rejects)
             fresh_heap = Val 0 h' /\
    dispatch sample_route_matches sample_mount_matches sample_mount_strip sample_mount_restore
        1 h' 0
             sample_request blank_response = Some run /\
    forwarded (run_signal run) = [Error "no such post"] /\
    run_calls run
      = map InvStep ([step_ok] ++ []) ++ [terminal_invocation (ByReturn result_rejects)].
Proof.
  apply (part_000_forwards_terminal_failure sample_route_matches sample_mount_matches
      sample_mount_strip sample_mount_restore
           0 0 fresh_heap [step_ok] get "/hello" [] (ByReturn result_rejects)
           sample_request sample_request blank_response (Error "no such post") 0).
  - reflexivity.
  - reflexivity.
  - intros req1 Hpass. simpl in Hpass. injection Hpass as <-. reflexivity.
  - reflexivity.
  - reflexivity.
Defined.

(** X15. A request that does not match the route of an endpoint runs the
    [Router.then] steps registered before it and nothing of the endpoint:
    none of its [LeafRouter.then] steps, not its terminal function, no
    response; the run calls [next()] and goes on to whatever follows. *)
Theorem unmatched_route_is_passed_over
    (route_matches : Method -> string -> Request -> bool)
    (mount_matches : string -> Request -> bool)
    (mount_strip mount_restore : string -> Request -> Request)
    (v : Revision) (this e : nat) (h : Heap)
    (pre : list Step) (m : Method) (path : string) (steps : list Step)
    (t : Terminal) (req req1 : Request) (res : Response) (fuel : nat) :
  routers h !! this = Some (mkRouter false e) ->
  express h !! e = Some [] ->
  pass pre req = Some req1 ->
  route_matches m path req1 = false ->
  exists h',
    endpoint v this pre m path steps t h = Val e h' /\
    dispatch route_matches mount_matches mount_strip mount_restore (S fuel) h' e req res
      = Some (mkRun req1 res (map InvStep pre) SNext).
Proof.
  intros Hthis He Hpass Hroute.
  destruct (endpoint_run v this pre m path steps t e [] h Hthis He) as (h' & Hbuild & Hx).
  exists h'. split; [done|]. simpl. rewrite Hx. simpl.
  by apply run_layers_unmatched.
Qed.

Lemma unmatched_route_is_passed_over_witness :
  exists h',
    endpoint index_ts 0 [step_ok] get "/other" [step_throws] (ByReturn result_body)
             fresh_heap = Val 0 h' /\
    dispatch sample_route_matches sample_mount_matches sample_mount_strip sample_mount_restore
        1 h' 0
             sample_request blank_response
      = Some (mkRun sample_request blank_response (map InvStep [step_ok]) SNext).
Proof.
  apply (unmatched_route_is_passed_over sample_route_matches sample_mount_matches
      sample_mount_strip sample_mount_restore
           index_ts 0 0 fresh_heap [step_ok] get "/other" [step_throws]
           (ByReturn result_body) sample_request sample_request blank_response 0).
  - reflexivity.
  - reflexivity.
  - reflexivity.
  - reflexivity.
Defined.

Lemma guarded_late_run v this m path steps t guard e ls h :
  routers h !! this = Some (mkRouter false e) ->
  express h !! e = Some ls ->
  exists h', guarded_late v this m path steps t guard h = Val e h' /\
    express h' !! e
      = Some (ls ++ [LayerRoute m path (map (then_handler v) steps
                                          ++ [terminal_handler v t]);
                     use_layer v guard]).
Proof.
  intros Hthis He. unfold guarded_late, bind.
  pose proof (lookup_lt_Some _ _ _ He) as Hlt.
  rewrite (Router_method_run m this path e h Hthis).
  edestruct (LeafRouter_thens_run v steps (length (leaves h)) e m path [])
    as (l & h2 & -> & Hl & Hr2 & Hx2); [by apply lookup_fresh_Some|].
  simpl in Hr2, Hx2.
  erewrite (LeafRouter_close_run v l t e m path); [|exact Hl|by rewrite Hx2].
  erewrite (Router_then_run v this guard e);
    [|simpl; by rewrite Hr2
     |simpl; rewrite Hx2; by apply list_lookup_insert_eq].
  erewrite Router_toExpress_run.
  2:{ simpl. apply list_lookup_middle. by rewrite length_insert. }
  eexists. split; [done|]. cbn [express]. rewrite list_insert_insert_eq.
  rewrite list_lookup_insert_eq by (by rewrite Hx2).
  by rewrite <- app_assoc.
Qed.

(** X16. A step added with [Router.then] after an endpoint of the same
    [Router] was closed does not guard that endpoint: a request matching
    the route is handled by the endpoint's own chain alone and the later
    step is never invoked.  (The README's first endpoint is registered this
    way, ahead of [authenticateAdmin].) *)
Theorem later_step_does_not_guard_earlier_endpoint
    (route_matches : Method -> string -> Request -> bool)
    (mount_matches : string -> Request -> bool)
    (mount_strip mount_restore : string -> Request -> Request)
    (v : Revision) (this e : nat) (h : Heap)
    (m : Method) (path : string) (steps : list Step) (t : Terminal) (guard : Step)
    (req : Request) (res : Response) (fuel : nat) :
  routers h !! this = Some (mkRouter false e) ->
  express h !! e = Some [] ->
  route_matches m path req = true ->
  exists h',
    guarded_late v this m path steps t guard h = Val e h' /\
    dispatch route_matches mount_matches mount_strip mount_restore (S fuel) h' e req res
      = Some (pipeline_run v steps t req res).
Proof.
  intros Hthis He Hroute.
  destruct (guarded_late_run v this m path steps t guard e [] h Hthis He)
    as (h' & Hbuild & Hx).
  exists h'. split; [done|]. simpl. rewrite Hx. simpl. rewrite Hroute.
  rewrite run_handlers_pipeline.
  apply continue_stops, pipeline_run_stops.
Qed.

Lemma later_step_does_not_guard_earlier_endpoint_witness :
  exists h',
    guarded_late index_ts 0 get "/hello" [] (ByReturn result_body) step_throws
                 fresh_heap = Val 0 h' /\
    dispatch sample_route_matches sample_mount_matches sample_mount_strip sample_mount_restore
        1 h' 0
             sample_request blank_response
      = Some (pipeline_run index_ts [] (ByReturn result_body)
                sample_request blank_response).
Proof.
  apply (later_step_does_not_guard_earlier_endpoint
           sample_route_matches sample_mount_matches sample_mount_strip sample_mount_restore
               index_ts 0 0 fresh_heap
           get "/hello" [] (ByReturn result_body) step_throws
           sample_request blank_response 0).
  - reflexivity.
  - reflexivity.
  - reflexivity.
Defined.

(** ** Narrowing steps, further *)

(** [marshalParams(M.str)] of [part_000] passes a request whose path
    parameters are a string although its body is a number. *)
Example marshalParams_part_000_sample :
  marshalParams sample_marshal part_000 M_str slug_request
    = (slug_request, Returns slug_request) /\
  marshalParams sample_marshal index_ts M_str slug_request
    = (slug_request, Throws (MarshalError "Expected string" (JsNum 3))).
Proof. split; reflexivity. Qed.

Lemma marshalBody_step {MarshalUnion : Type}
    (marshal : JsValue -> MarshalUnion -> option string) v d req :
  marshalBody marshal v d req
    = match marshal (req_body req) d with
      | None => (req, Returns req)
      | Some message => (req, Throws (MarshalError message (req_body req)))
      end.
Proof. done. Qed.

(** X19. An endpoint [router[m](path).then(marshalBody(d)).return(f)]: a
    matching request whose body violates [d] never reaches [f] and gets no
    response; the [MarshalError] carrying the body leaves through [next]
    in [part_000] (as a rejected promise in the other two revisions).  A
    request whose body satisfies [d] is answered with what [f] makes of the
    unchanged request. *)
Theorem marshalBody_guards_the_endpoint
    (MarshalUnion : Type) (marshal : JsValue -> MarshalUnion -> option string)
    (route_matches : Method -> string -> Request -> bool)
    (mount_matches : string -> Request -> bool)
    (mount_strip mount_restore : string -> Request -> Request)
    (v : Revision) (this e : nat) (h : Heap) (m : Method) (path : string)
    (d : MarshalUnion) (fn : ResultFn) (req : Request) (res : Response)
    (fuel : nat) :
  routers h !! this = Some (mkRouter false e) ->
  express h !! e = Some [] ->
  route_matches m path req = true ->
  exists h',
    endpoint v this [] m path [marshalBody marshal v d] (ByReturn fn) h = Val e h' /\
    (forall message, marshal (req_body req) d = Some message ->
       dispatch route_matches mount_matches mount_strip mount_restore (S fuel) h' e req res
         = Some (mkRun req res [InvStep (marshalBody marshal v d)]
                   (failure_signal v (MarshalError message (req_body req))))) /\
    (forall reply, satisfies marshal (req_body req) d ->
       await (fn req).2 = inr reply ->
       dispatch route_matches mount_matches mount_strip mount_restore (S fuel) h' e req res
         = Some (mkRun (fn req).1 (res_send res reply)
                   [InvStep (marshalBody marshal v d); InvResult fn] SReturned)).
Proof.
  intros Hthis He Hroute.
  destruct (endpoint_dispatch route_matches mount_matches mount_strip mount_restore v this e h
              [] m path [marshalBody marshal v d] (ByReturn fn) req res fuel Hthis He)
    as (h' & Hbuild & Hrun).
  { simpl. by intros req1 [= <-]. }
  exists h'. split; [done|]. rewrite Hrun. split.
  - intros message Hm. cbn [app pipeline_run].
    rewrite marshalBody_step, Hm. done.
  - intros reply Hsat Hreply. cbn [app pipeline_run].
    rewrite marshalBody_step, Hsat. simpl. unfold after_call. f_equal.
    destruct v; simpl; unfold return_handler_plain, return_handler_caught;
      destruct (fn req) as [req' c]; simpl in *; by rewrite Hreply.
Qed.

Lemma marshalBody_guards_the_endpoint_witness :
  exists h',
    endpoint part_000 0 [] post "/" [marshalBody sample_marshal part_000 M_str]
             (ByReturn result_body) fresh_heap = Val 0 h' /\
    (forall message, sample_marshal (req_body number_request) M_str = Some message ->
       dispatch sample_route_matches sample_mount_matches sample_mount_strip sample_mount_restore
           1 h' 0
                number_request blank_response
         = Some (mkRun number_request blank_response
                   [InvStep (marshalBody sample_marshal part_000 M_str)]
                   (failure_signal part_000
                      (MarshalError message (req_body number_request))))) /\
    (forall reply, satisfies sample_marshal (req_body number_request) M_str ->
       await (result_body number_request).2 = inr reply ->
       dispatch sample_route_matches sample_mount_matches sample_mount_strip sample_mount_restore
           1 h' 0
                number_request blank_response
         = Some (mkRun (result_body number_request).1 (res_send blank_response reply)
                   [InvStep (marshalBody sample_marshal part_000 M_str);
                    InvResult result_body] SReturned)).
Proof.
  apply (marshalBody_guards_the_endpoint SampleUnion sample_marshal
           sample_route_matches sample_mount_matches sample_mount_strip sample_mount_restore
               part_000 0 0 fresh_heap
           post "/" M_str result_body number_request blank_response 0).
  - reflexivity.
  - reflexivity.
  - reflexivity.
Defined.

(** ** A mounted chain *)

Lemma Router_thens_frame v fns : forall this e ls h r h',
  routers h !! this = Some (mkRouter false e) ->
  express h !! e = Some ls ->
  Router_thens v this fns h = Val r h' ->
  (forall r0 o0, routers h !! r0 = Some o0 -> Router_router o0 <> e ->
     routers h' !! r0 = Some o0) /\
  (forall e0, e0 <> e -> express h' !! e0 = express h !! e0) /\
  leaves h' = leaves h.
Proof.
  induction fns as [|fn fns IH]; intros this e ls h r h' Hthis He; simpl.
  - unfold ret. by intros ?; simplify_eq.
  - unfold bind. rewrite (Router_then_run v this fn e ls h Hthis He).
    pose proof (lookup_lt_Some _ _ _ Hthis) as Hlt.
    pose proof (lookup_lt_Some _ _ _ He) as Hlt'.
    intros Hrest. eapply IH in Hrest as (HR & HE & HL).
    + split; [|split; [|done]].
      * intros r0 o0 Hr0 Hne. apply HR; [|done]. simpl.
        assert (r0 <> this) by (intros ->; rewrite Hthis in Hr0; by simplify_eq).
        rewrite lookup_app_l by (rewrite length_insert; by eapply lookup_lt_Some).
        by rewrite list_lookup_insert_ne.
      * intros e0 Hne. rewrite HE by done. simpl. by rewrite list_lookup_insert_ne.
    + simpl. apply list_lookup_middle. by rewrite length_insert.
    + simpl. by apply list_lookup_insert_eq.
Qed.




(** ** What a call consumes *)

Section Footprint.

Variable P : nat -> Prop.

Lemma routers_kept_outside_refl h : routers_kept_outside P h h.
Proof. by intros r o. Qed.

Lemma routers_kept_outside_trans h1 h2 h3 :
  routers_kept_outside P h1 h2 -> routers_kept_outside P h2 h3 ->
  routers_kept_outside P h1 h3.
Proof. intros H12 H23 r o Ho HP. apply H23; [by apply H12 | done]. Qed.

Lemma routers_kept_outside_same h h' :
  routers h' = routers h -> routers_kept_outside P h h'.
Proof. intros Hr r o. by rewrite Hr. Qed.

Lemma outside_Router_consume this :
  P this -> preserves (routers_kept_outside P) (Router_consume this).
Proof.
  intros HP h h'. unfold Router_consume.
  destruct (routers h !! this) as [o|]; [|done].
  destruct (consume _); simpl; intros [= <-]; [apply routers_kept_outside_refl|].
  intros r o' Ho' HnP. simpl. rewrite list_lookup_insert_ne; [done|].
  by intros ->.
Qed.

Lemma outside_express_register e l :
  preserves (routers_kept_outside P) (express_register e l).
Proof.
  intros h h'. unfold express_register.
  destruct (express h !! e) as [ls|]; [|done]. simpl. intros [= <-].
  by apply routers_kept_outside_same.
Qed.

Lemma outside_Router_new router : preserves (routers_kept_outside P) (Router_new router).
Proof.
  intros h h'. unfold Router_new, bind, express_new, ret.
  destruct router; simpl; intros [= <-] r o Ho _; simpl; by apply lookup_app_l_Some.
Qed.

Lemma outside_LeafRouter_new e m path hs :
  preserves (routers_kept_outside P) (LeafRouter_new e m path hs).
Proof. intros h h' [= <-]. by apply routers_kept_outside_same. Qed.

Lemma outside_Router_toExpress this :
  P this -> preserves (routers_kept_outside P) (Router_toExpress this).
Proof.
  intros HP. unfold Router_toExpress.
  apply (preserves_bind _ routers_kept_outside_trans); [by apply outside_Router_consume|].
  intros _. apply (preserves_same _ routers_kept_outside_refl), Router_get_router_same.
Qed.

Lemma outside_compile_arg a :
  (forall r, a = UseRouter r -> P r) ->
  preserves (routers_kept_outside P) (compile_arg a).
Proof.
  intros Ha. destruct a; simpl; try apply (preserves_ret _ routers_kept_outside_refl).
  apply (preserves_bind _ routers_kept_outside_trans);
    [apply outside_Router_toExpress; by apply Ha|intros].
  apply (preserves_ret _ routers_kept_outside_refl).
Qed.

End Footprint.

Ltac outside_chain :=
  repeat first
    [ apply outside_express_register
    | apply (preserves_express_use _ (routers_kept_outside_refl _)); intros
    | apply outside_Router_new
    | apply outside_LeafRouter_new
    | apply (preserves_ret _ (routers_kept_outside_refl _))
    | apply (preserves_same _ (routers_kept_outside_refl _)), Router_checkConsumed_same
    | apply (preserves_same _ (routers_kept_outside_refl _)), Router_get_router_same
    | apply (preserves_bind _ (routers_kept_outside_trans _)); [|intros] ].

(** X21. A call on a [Router], returning or throwing, writes to no other
    [Router] than its receiver and, for [use], the [Router] instances
    passed as arguments: every other [Router] keeps its fields, so it is
    consumed neither by accident nor by a failed call. *)
Theorem Router_call_consumes_receiver_and_delegates_only
    (v : Revision) (this : nat) (c : RouterCall) (h h' : Heap)
    (r : nat) (o : RouterObj) :
  heap_of (perform v (OnRouter this c) h) = Some h' ->
  routers h !! r = Some o ->
  ~ consumed_by this c r ->
  routers h' !! r = Some o.
Proof.
  intros Hrun. revert r o.
  change (routers_kept_outside (consumed_by this c) h h'). revert h h' Hrun.
  change (preserves (routers_kept_outside (consumed_by this c))
                    (perform v (OnRouter this c))).
  assert (consumed_by this c this) as Hthis by (by left).
  destruct c as [first second|fn|fn|m path|]; simpl;
    unfold returning, Router_use, Router_use_fn, Router_then, Router_method.
  all: apply (preserves_bind _ (routers_kept_outside_trans _));
    [|intros; apply (preserves_ret _ (routers_kept_outside_refl _))].
  - apply (preserves_bind _ (routers_kept_outside_trans _));
      [by apply outside_Router_consume|intros].
    apply (preserves_bind _ (routers_kept_outside_trans _));
      [apply outside_compile_arg; intros r0 ->; right; by left|intros].
    apply (preserves_bind _ (routers_kept_outside_trans _));
      [apply outside_compile_arg; intros r0 ->; right; by right|intros].
    outside_chain.
  - apply (preserves_bind _ (routers_kept_outside_trans _));
      [by apply outside_Router_consume|intros]. outside_chain.
  - apply (preserves_bind _ (routers_kept_outside_trans _));
      [by apply outside_Router_consume|intros]. outside_chain.
  - outside_chain.
  - by apply outside_Router_toExpress.
Qed.

(** [main.use("/blog", blog)] leaves a third router alone. *)
Lemma Router_call_consumes_receiver_and_delegates_only_witness :
  routers (mkHeap [mkRouter true 0; mkRouter true 1; mkRouter false 2; mkRouter false 0]
                  [] [[LayerUse [ArgPath "/blog"; ArgRouter 1]]; []; []]) !! 2
    = Some (mkRouter false 2).
Proof.
  apply (Router_call_consumes_receiver_and_delegates_only index_ts 0
           (Use (UsePath "/blog") (UseRouter 1))
           (mkHeap [mkRouter false 0; mkRouter false 1; mkRouter false 2] []
                   [[]; []; []])).
  - reflexivity.
  - reflexivity.
  - intros [H|[H|H]]; discriminate H.
Defined.

(** ** Chains of [then] *)

(** X22. [r.then(f1).then(f2)...then(fn)], each call on the [Router] the
    one before returned, always succeeds on an unconsumed [Router]: it
    appends one [use] layer per step to the [Router]'s [ExpressRouter], in
    call order and after the layers already there, ends with an unconsumed
    [Router] over that same [ExpressRouter], and touches no [LeafRouter],
    no other [ExpressRouter] and no [Router] over another
    [ExpressRouter]. *)
Theorem Router_then_chain_registers_in_order
    (v : Revision) (fns : list Step) (this e : nat) (ls : list Layer) (h : Heap) :
  routers h !! this = Some (mkRouter false e) ->
  express h !! e = Some ls ->
  exists r h',
    Router_thens v this fns h = Val r h' /\
    routers h' !! r = Some (mkRouter false e) /\
    express h' !! e = Some (ls ++ map (use_layer v) fns) /\
    leaves h' = leaves h /\
    (forall e0, e0 <> e -> express h' !! e0 = express h !! e0) /\
    (forall r0 o0, routers h !! r0 = Some o0 -> Router_router o0 <> e ->
       routers h' !! r0 = Some o0).
Proof.
  intros Hthis He.
  destruct (Router_thens_run v fns this e ls h Hthis He) as (r & h' & Hrun & Hr & Hx).
  destruct (Router_thens_frame v fns this e ls h r h' Hthis He Hrun) as (HR & HE & HL).
  by exists r, h'.
Qed.

Lemma Router_then_chain_registers_in_order_witness :
  exists r h',
    Router_thens part_000 0 [step_ok; step_throws] fresh_heap = Val r h' /\
    routers h' !! r = Some (mkRouter false 0) /\
    express h' !! 0 = Some ([] ++ map (use_layer part_000) [step_ok; step_throws]) /\
    leaves h' = leaves fresh_heap /\
    (forall e0, e0 <> 0 -> express h' !! e0 = express fresh_heap !! e0) /\
    (forall r0 o0, routers fresh_heap !! r0 = Some o0 -> Router_router o0 <> 0 ->
       routers h' !! r0 = Some o0).
Proof.
  apply (Router_then_chain_registers_in_order part_000 [step_ok; step_throws] 0 0 []
           fresh_heap).
  - reflexivity.
  - reflexivity.
Defined.

(** X23. An endpoint chain
    [r.then(p1)...then(pk)], [get]/[post]/[put]/[delete], [.then(s1)...
    .then(sn)], [return] or [finish], [toExpress()] always succeeds on an
    unconsumed [Router], returns the [Router]'s own [ExpressRouter], and
    adds to it the [k] [use] layers and then one single route layer that
    holds the [n] step handlers in call order followed by the terminal
    handler. *)
Theorem endpoint_registers_one_route
    (v : Revision) (this e : nat) (pre : list Step) (m : Method) (path : string)
    (steps : list Step) (t : Terminal) (ls : list Layer) (h : Heap) :
  routers h !! this = Some (mkRouter false e) ->
  express h !! e = Some ls ->
  exists h',
    endpoint v this pre m path steps t h = Val e h' /\
    express h' !! e
      = Some (ls ++ map (use_layer v) pre
                 ++ [LayerRoute m path (map (then_handler v) steps
                                          ++ [terminal_handler v t])]).
Proof.
  intros Hthis He.
  destruct (Router_thens_run v pre this e ls h Hthis He) as (r & h1 & Hpre & Hr & Hx1).
  destruct (LeafRouter_thens_run v steps (length (leaves h1)) e m path []
              (mkHeap (routers h1) (leaves h1 ++ [mkLeafRouter false e m path []])
                      (express h1)))
    as (l & h2 & Hsteps & Hl & Hr2 & Hx2); [by apply lookup_fresh_Some|].
  simpl in Hr2, Hx2.
  unfold endpoint, bind. rewrite Hpre, (Router_method_run m r path e h1 Hr), Hsteps.
  erewrite (LeafRouter_close_run v l t e m path); [|exact Hl|by rewrite Hx2].
  erewrite Router_toExpress_run by (simpl; by rewrite Hr2).
  eexists. split; [done|]. simpl.
  rewrite list_lookup_insert_eq by (rewrite Hx2; by eapply lookup_lt_Some).
  by rewrite <- app_assoc.
Qed.

Lemma endpoint_registers_one_route_witness :
  exists h',
    endpoint index_ts 0 [step_ok] post "/" [step_ok; step_async_ok]
             (ByFinish (fun req res => (req, res, Returns tt))) fresh_heap = Val 0 h' /\
    express h' !! 0
      = Some ([] ++ map (use_layer index_ts) [step_ok]
                 ++ [LayerRoute post "/"
                       (map (then_handler index_ts) [step_ok; step_async_ok]
                          ++ [terminal_handler index_ts
                                (ByFinish (fun req res => (req, res, Returns tt)))])]).
Proof.
  apply (endpoint_registers_one_route index_ts 0 0 [step_ok] post "/"
           [step_ok; step_async_ok]
           (ByFinish (fun req res => (req, res, Returns tt))) [] fresh_heap).
  - reflexivity.
  - reflexivity.
Defined.

